(** * aiy.voice.audio: command builders, recorder and players

    A shallow embedding of [src/aiy/voice/audio.py].  Python integers are
    [Z], byte strings are lists of bytes, [None]-able arguments are options,
    exceptions are an error type, and the objects the module mutates (the
    recorder's flags, the child processes and their pipes, the output wave
    file) are explicit state.  The definitions come first, the verified
    properties after them. *)

From Stdlib Require Import ZArith List String Ascii Bool Lia Strings.Byte.
From Stdlib Require Import SpecFloat Decimal DecimalString.
From Stdlib Require DecimalPos DecimalZ.
Import ListNotations.

Local Open Scope string_scope.
Local Open Scope list_scope.
Local Open Scope Z_scope.

(** ** Python values, exceptions and results *)

Abbreviation bytes := (list byte).

(** The exceptions the module raises or lets through.  The specification's
    [InvalidArgument] is Python's [ValueError]. *)
Inductive exn : Type :=
| ValueError (msg : string)
| NameError (name : string)
| TypeError (msg : string)
| AttributeError (msg : string)
| OverflowError (msg : string)
| OSError (msg : string)
| WaveError (msg : string)
| GeneratorExit.

Inductive result (A : Type) : Type :=
| Ok (a : A)
| Raise (e : exn).

Arguments Ok {A} a.
Arguments Raise {A} e.

Definition bind {A B : Type} (r : result A) (k : A -> result B) : result B :=
  match r with
  | Ok a => k a
  | Raise e => Raise e
  end.

Notation "x <- r ;; k" := (bind r (fun x => k))
  (at level 61, r at next level, right associativity).

Definition is_ok {A : Type} (r : result A) : bool :=
  match r with Ok _ => true | Raise _ => false end.

(** [str(n)] and the [%d] conversion of a Python integer: decimal digits
    with a leading minus sign for negative numbers. *)
Definition str (n : Z) : string := NilZero.string_of_int (Z.to_int n).

(** The run-time values a caller can pass where the code inspects the type
    of its argument. *)
Inductive pyval : Type :=
| VNone
| VInt (n : Z)
| VStr (s : string)
| VBytes (b : bytes)
| VFormat (sr ch bps : Z)
| VObject (class_name : string)
| VGlobal (name : string).

(** Truthiness of an optional byte string: [None] and [b''] are false. *)
Definition truthy_bytes (data : option bytes) : bool :=
  match data with
  | None => false
  | Some [] => false
  | Some (_ :: _) => true
  end.

(** ** AudioFormat *)

Record AudioFormat : Type := mkAudioFormat {
  sample_rate_hz : Z;
  num_channels : Z;
  bytes_per_sample : Z
}.

Definition bytes_per_second (self : AudioFormat) : Z :=
  sample_rate_hz self * num_channels self * bytes_per_sample self.

Definition CD : AudioFormat := mkAudioFormat 44100 2 2.

(** ** Command builders *)

(** [filetype not in ('wav', 'raw', 'voc', 'au')] *)
Definition arecord_filetypes : list string := ["wav"; "raw"; "voc"; "au"].

Definition arecord (fmt : option AudioFormat) (filetype : string)
  (filename : option string) (device : string) : result (list string) :=
  match fmt with
  | None => Raise (ValueError "Format must be specified.")
  | Some fmt =>
    if negb (existsb (String.eqb filetype) arecord_filetypes)
    then Raise (ValueError "File type must be wav, raw, voc, or au.")
    else
      let cmd := ["arecord"; "-q";
                  "-t"; filetype;
                  "-D"; device;
                  "-c"; str (num_channels fmt);
                  "-f"; "s" ++ str (8 * bytes_per_sample fmt);
                  "-r"; str (sample_rate_hz fmt)]%string in
      let cmd := match filename with
                 | Some f => cmd ++ [f]
                 | None => cmd
                 end in
      Ok cmd
  end.

Definition aplay (fmt : option AudioFormat) (filetype : string)
  (filename : option string) (device : string) : result (list string) :=
  if (String.eqb filetype "raw"
      && match fmt with None => true | Some _ => false end)%bool
  then Raise (ValueError "Format must be specified for raw data.")
  else
    let cmd := ["aplay"; "-q"; "-t"; filetype; "-D"; device] in
    let cmd := match fmt with
               | Some fmt =>
                 cmd ++ ["-c"; str (num_channels fmt);
                         "-f"; "s" ++ str (8 * bytes_per_sample fmt);
                         "-r"; str (sample_rate_hz fmt)]%string
               | None => cmd
               end in
    let cmd := match filename with
               | Some f => cmd ++ [f]
               | None => cmd
               end in
    Ok cmd.

(** ** The host: child processes and their pipes *)

(** A call made on the writable end of a pipe ([process.stdin]). *)
Inductive stdin_call : Type :=
| SWrite (data : bytes)
| SClose.

Definition is_close (c : stdin_call) : bool :=
  match c with SClose => true | SWrite _ => false end.

(** The readable end of a pipe ([process.stdout]): the bytes the child will
    still deliver before end-of-stream, and whether the reader closed it. *)
Record rpipe : Type := mkRpipe {
  pending : bytes;
  rclosed : bool
}.

Record process : Type := mkProcess {
  proc_cmd : list string;
  proc_stdin : option (list stdin_call);  (* calls so far, when stdin=PIPE *)
  proc_stdout : option rpipe;             (* when stdout=PIPE *)
  proc_terminated : bool;
  proc_waited : bool
}.

(** Everything [subprocess.Popen] has spawned, oldest first; a process handle
    is an index in this list.  [popen_error] is the failure of launching an
    executable on this host, if any; [capture cmd] is what a child started
    with [cmd] writes to its standard output before it ends. *)
Record host : Type := mkHost {
  procs : list process;
  popen_error : option exn;
  capture : list string -> bytes
}.

Definition set_procs (ps : list process) (h : host) : host :=
  mkHost ps (popen_error h) (capture h).

Fixpoint update_nth {A : Type} (i : nat) (f : A -> A) (l : list A) : list A :=
  match l, i with
  | [], _ => []
  | x :: l', O => f x :: l'
  | x :: l', S i' => x :: update_nth i' f l'
  end.

Definition get_proc (p : nat) (h : host) : option process := nth_error (procs h) p.

Definition update_proc (p : nat) (f : process -> process) (h : host) : host :=
  set_procs (update_nth p f (procs h)) h.

(** ** State and exceptions together

    A computation over a state [S] returns a value or raises, and in both
    cases leaves the state its effects produced. *)
Definition M (S A : Type) : Type := S -> result A * S.

Definition ret {S A : Type} (a : A) : M S A := fun s => (Ok a, s).
Definition raise {S A : Type} (e : exn) : M S A := fun s => (Raise e, s).
Definition lift {S A : Type} (r : result A) : M S A := fun s => (r, s).
Definition get {S : Type} : M S S := fun s => (Ok s, s).
Definition modify {S : Type} (f : S -> S) : M S unit := fun s => (Ok tt, f s).

Definition bindM {S A B : Type} (m : M S A) (k : A -> M S B) : M S B :=
  fun s =>
    match m s with
    | (Ok a, s') => k a s'
    | (Raise e, s') => (Raise e, s')
    end.

Notation "x <~ m ;; k" := (bindM m (fun x => k))
  (at level 61, m at next level, right associativity).

(** What a call that waits (on an event, on a child process) can do:
    return, normally or by raising, or block because what it waits for does
    not happen. *)
Inductive outcome (S : Type) : Type :=
| Returned (r : result unit) (s : S)
| Blocked.

Arguments Returned {S} r s.
Arguments Blocked {S}.

(** ** subprocess *)

(** [subprocess.Popen(cmd, stdin=..., stdout=...)] *)
Definition Popen (cmd : list string) (stdin_pipe stdout_pipe : bool) : M host nat :=
  fun h =>
    match popen_error h with
    | Some e => (Raise e, h)
    | None =>
      let p := mkProcess cmd
                 (if stdin_pipe then Some [] else None)
                 (if stdout_pipe then Some (mkRpipe (capture h cmd) false) else None)
                 false false in
      (Ok (List.length (procs h)), set_procs (procs h ++ [p]) h)
    end.

Definition no_attribute (attr : string) : exn :=
  AttributeError ("NoneType object has no attribute " ++ attr).

Definition stdin_closed (calls : list stdin_call) : bool := existsb is_close calls.

Definition log_stdin (c : stdin_call) (pr : process) : process :=
  mkProcess (proc_cmd pr)
    (match proc_stdin pr with Some calls => Some (calls ++ [c]) | None => None end)
    (proc_stdout pr) (proc_terminated pr) (proc_waited pr).

(** [process.stdin.write(data)], the child holding its end of the pipe: the
    call reaches the pipe; a pipe the caller has closed refuses it. *)
Definition stdin_write (p : nat) (data : bytes) : M host unit :=
  fun h =>
    match get_proc p h with
    | None => (Raise (no_attribute "stdin"), h)
    | Some pr =>
      match proc_stdin pr with
      | None => (Raise (no_attribute "write"), h)
      | Some calls =>
        (if stdin_closed calls then Raise (ValueError "write to closed file") else Ok tt,
         update_proc p (log_stdin (SWrite data)) h)
      end
    end.

(** [process.stdin.close()], the child holding its end of the pipe. *)
Definition stdin_close (p : nat) : M host unit :=
  fun h =>
    match get_proc p h with
    | None => (Raise (no_attribute "stdin"), h)
    | Some pr =>
      match proc_stdin pr with
      | None => (Raise (no_attribute "close"), h)
      | Some calls => (Ok tt, update_proc p (log_stdin SClose) h)
      end
    end.

Definition set_waited (pr : process) : process :=
  mkProcess (proc_cmd pr) (proc_stdin pr) (proc_stdout pr) (proc_terminated pr) true.

Definition set_terminated (pr : process) : process :=
  mkProcess (proc_cmd pr) (proc_stdin pr) (proc_stdout pr) true (proc_waited pr).

(** [process.wait()] returns once the child has exited: what the call
    does when it returns. *)
Definition wait (p : nat) : M host unit :=
  fun h =>
    match get_proc p h with
    | None => (Raise (no_attribute "wait"), h)
    | Some _ => (Ok tt, update_proc p set_waited h)
    end.

(** [process.wait()] with the child in view.  Whether a child ever exits is
    the child's business: [exits pr] tells it of the child of a process in
    the state [pr].  The call returns for a child that exits and blocks for
    one that never does. *)
Definition wait_for (exits : process -> bool) (p : nat) (h : host) : outcome host :=
  match get_proc p h with
  | None => Returned (Raise (no_attribute "wait")) h
  | Some pr => if exits pr then Returned (Ok tt) (update_proc p set_waited h) else Blocked
  end.

(** [process.terminate()] *)
Definition terminate (p : nat) : M host unit :=
  fun h =>
    match get_proc p h with
    | None => (Raise (no_attribute "terminate"), h)
    | Some _ => (Ok tt, update_proc p set_terminated h)
    end.

(** ** Names

    A name that a function body reads is looked up among the function's
    local variables, then among the names bound at module level, then among
    the builtins; a name found nowhere raises [NameError]. *)
Definition module_globals : list string :=
  ["contextlib"; "subprocess"; "threading"; "itertools"; "wave"; "namedtuple";
   "AudioFormat"; "wave_set_format"; "wave_get_format"; "arecord"; "aplay";
   "record_file_async"; "record_file"; "play_wav_async"; "play_wav";
   "play_raw_async"; "play_raw"; "Recorder"; "Player"; "FilePlayer";
   "BytesPlayer"].

Definition builtins_used : list string :=
  ["isinstance"; "bytes"; "bytearray"; "str"; "int"; "range"; "super";
   "ValueError"; "None"].

Definition env : Type := list (string * pyval).

Fixpoint lookup (name : string) (e : env) : option pyval :=
  match e with
  | [] => None
  | (n, v) :: e' => if String.eqb name n then Some v else lookup name e'
  end.

Definition load_name (locals : env) (name : string) : result pyval :=
  match lookup name locals with
  | Some v => Ok v
  | None =>
    if existsb (String.eqb name) (module_globals ++ builtins_used)
    then Ok (VGlobal name)
    else Raise (NameError name)
  end.

(** Binding the positional arguments of a call to the parameters of a [def];
    a parameter carries its default value when it has one. *)
Fixpoint bind_args (params : list (string * option pyval)) (args : list pyval)
  : result env :=
  match params, args with
  | [], [] => Ok []
  | [], _ :: _ => Raise (TypeError "too many positional arguments")
  | (p, _) :: ps, a :: args' =>
    e <- bind_args ps args' ;; Ok ((p, a) :: e)
  | (p, Some d) :: ps, [] =>
    e <- bind_args ps [] ;; Ok ((p, d) :: e)
  | (p, None) :: ps, [] => Raise (TypeError "missing a required positional argument")
  end.

Definition fmt_val (fmt : option AudioFormat) : pyval :=
  match fmt with
  | None => VNone
  | Some f => VFormat (sample_rate_hz f) (num_channels f) (bytes_per_sample f)
  end.

(** Reading a value back as the argument a command builder expects. *)
Definition as_fmt (v : pyval) : result (option AudioFormat) :=
  match v with
  | VNone => Ok None
  | VFormat sr ch bps => Ok (Some (mkAudioFormat sr ch bps))
  | _ => Raise (AttributeError "object has no attribute num_channels")
  end.

Definition as_filename (v : pyval) : result (option string) :=
  match v with
  | VNone => Ok None
  | VStr s => Ok (Some s)
  | _ => Raise (TypeError "expected str, bytes or os.PathLike object")
  end.

Definition as_str (v : pyval) : result string :=
  match v with
  | VStr s => Ok s
  | _ => Raise (TypeError "expected str, bytes or os.PathLike object")
  end.

(** ** Top-level helpers *)

Definition record_file_async (fmt : option AudioFormat) (filename : option string)
  (filetype : string) (device : string) : M host nat :=
  cmd <~ lift (arecord fmt filetype filename device) ;;
  Popen cmd false false.

Definition play_wav_async (filename_or_bytes : pyval) : M host nat :=
  match filename_or_bytes with
  | VBytes b =>
    cmd <~ lift (aplay None "wav" None "default") ;;
    process <~ Popen cmd true false ;;
    _ <~ stdin_write process b ;;
    ret process
  | VStr s =>
    cmd <~ lift (aplay None "wav" (Some s) "default") ;;
    Popen cmd false false
  | _ => raise (ValueError "Must be filename or byte-like object")
  end.

(** [play_wav]: the player is spawned, then waited for. *)
Definition play_wav (exits : process -> bool) (filename_or_bytes : pyval) (h : host)
  : outcome host :=
  match play_wav_async filename_or_bytes h with
  | (Ok process, h') => wait_for exits process h'
  | (Raise e, h') => Returned (Raise e) h'
  end.

(** In the [str] branch the keyword argument [filename=filename] reads the
    name [filename], which is neither a parameter nor a local of the function
    (those are [fmt], [filename_or_bytes], [cmd] and [process]). *)
Definition play_raw_async (fmt : option AudioFormat) (filename_or_bytes : pyval)
  : M host nat :=
  match filename_or_bytes with
  | VBytes b =>
    cmd <~ lift (aplay fmt "raw" None "default") ;;
    process <~ Popen cmd true false ;;
    _ <~ stdin_write process b ;;
    ret process
  | VStr s =>
    let locals := [("fmt", fmt_val fmt); ("filename_or_bytes", VStr s)] in
    filename <~ lift (load_name locals "filename") ;;
    filename <~ lift (as_filename filename) ;;
    cmd <~ lift (aplay fmt "raw" filename "default") ;;
    Popen cmd false false
  | _ => raise (ValueError "Must be filename or byte-like object")
  end.

(** [play_raw_async(fmt, filename).wait()]: the argument is again the name
    [filename], not the parameter [filename_or_bytes]. *)
Definition play_raw (fmt : option AudioFormat) (filename_or_bytes : pyval)
  : M host unit :=
  let locals := [("fmt", fmt_val fmt); ("filename_or_bytes", filename_or_bytes)] in
  filename <~ lift (load_name locals "filename") ;;
  process <~ play_raw_async fmt filename ;;
  wait process.

(** ** Player *)

Module Player.

(** The instance: the [_started] event and the [_process] attribute, which
    does not exist before the first [popen]. *)
Record t : Type := mk {
  _started : bool;
  _process : option nat
}.

Definition init : t := mk false None.

(** A player together with the host it runs on. *)
Record state : Type := mkState {
  self : t;
  on_host : host
}.

(** Running a host computation from a method. *)
Definition in_host {A : Type} (m : M host A) : M state A :=
  fun s =>
    let (r, h) := m (on_host s) in
    (r, mkState (self s) h).

Definition popen (cmd : list string) (stdin_pipe : bool) : M state nat :=
  process <~ in_host (Popen cmd stdin_pipe false) ;;
  _ <~ modify (fun s => mkState (mk (_started (self s)) (Some process)) (on_host s)) ;;
  _ <~ modify (fun s => mkState (mk true (_process (self s))) (on_host s)) ;;
  ret process.

End Player.

Module FilePlayer.

(** [def play_raw(fmt, filename, device='default')]: the method is declared
    without a [self] parameter, so a call [player.play_raw(a, ...)] binds
    the instance to [fmt]; the body then reads the name [self]. *)
Definition play_raw (args : list pyval) : M Player.state unit :=
  locals <~ lift (bind_args [("fmt", None); ("filename", None);
                             ("device", Some (VStr "default"))]
                            (VObject "FilePlayer" :: args)) ;;
  _ <~ lift (load_name locals "self") ;;
  fmt <~ lift (v <- load_name locals "fmt" ;; as_fmt v) ;;
  filename <~ lift (v <- load_name locals "filename" ;; as_filename v) ;;
  device <~ lift (v <- load_name locals "device" ;; as_str v) ;;
  cmd <~ lift (aplay fmt "raw" filename device) ;;
  _ <~ Player.popen cmd false ;;
  ret tt.

(** [def play_wav(filename, device='default')], declared without [self] as
    well. *)
Definition play_wav (args : list pyval) : M Player.state unit :=
  locals <~ lift (bind_args [("filename", None);
                             ("device", Some (VStr "default"))]
                            (VObject "FilePlayer" :: args)) ;;
  _ <~ lift (load_name locals "self") ;;
  filename <~ lift (v <- load_name locals "filename" ;; as_filename v) ;;
  device <~ lift (v <- load_name locals "device" ;; as_str v) ;;
  cmd <~ lift (aplay None "wav" filename device) ;;
  _ <~ Player.popen cmd false ;;
  ret tt.

End FilePlayer.

Module BytesPlayer.

(** The closure [push], over the process handle [play] obtained. *)
Definition push (process : nat) (data : option bytes) : M host unit :=
  match data with
  | Some d => if truthy_bytes data then stdin_write process d else stdin_close process
  | None => stdin_close process
  end.

Definition play (fmt : option AudioFormat) (device : string)
  : M Player.state (option bytes -> M host unit) :=
  cmd <~ lift (aplay fmt "raw" None device) ;;
  process <~ Player.popen cmd true ;;
  ret (push process).

End BytesPlayer.

(** ** Numbers

    [chunk_duration_sec] is an [int] or a [float]; floats are IEEE 754
    binary64 values, with the operations of [SpecFloat]. *)
Definition prec : Z := 53.
Definition emax : Z := 1024.

Inductive number : Type :=
| NInt (n : Z)
| NFloat (x : spec_float).

(** Conversion of the [int] operand of a mixed product, rounding to the
    nearest float. *)
Definition float_of_int (n : Z) : result spec_float :=
  match binary_normalize prec emax n 0 false with
  | S754_infinity _ => Raise (OverflowError "int too large to convert to float")
  | x => Ok x
  end.

(** [number * int] *)
Definition mul_int (x : number) (n : Z) : result number :=
  match x with
  | NInt m => Ok (NInt (m * n))
  | NFloat f => g <- float_of_int n ;; Ok (NFloat (SFmul prec emax f g))
  end.

(** [int(x)]: truncation towards zero. *)
Definition int (x : number) : result Z :=
  match x with
  | NInt n => Ok n
  | NFloat (S754_zero _) => Ok 0
  | NFloat (S754_finite s m e) =>
    let magnitude := if 0 <=? e then Z.pos m * 2 ^ e else Z.pos m / 2 ^ (- e) in
    Ok (if s then - magnitude else magnitude)
  | NFloat (S754_infinity _) =>
    Raise (OverflowError "cannot convert float infinity to integer")
  | NFloat S754_nan => Raise (ValueError "cannot convert float NaN to integer")
  end.

(** ** Callbacks and wave files *)

(** A callback of the caller: all the module does with it is call it; the
    call returns or raises. *)
Record callback : Type := mkCallback {
  cb_raises : option exn
}.

Definition call (cb : callback) : result unit :=
  match cb_raises cb with
  | Some e => Raise e
  | None => Ok tt
  end.

Definition record_file (fmt : option AudioFormat) (filename : option string)
  (filetype : string) (wait_cb : option callback) (device : string) : M host unit :=
  match wait_cb with
  | None => raise (ValueError "Wait callback must be specified.")
  | Some cb =>
    process <~ record_file_async fmt filename filetype device ;;
    _ <~ lift (call cb) ;;
    _ <~ terminate process ;;
    wait process
  end.

(** A file opened with [wave.open(filename, 'wb')]. *)
Record wav_file : Type := mkWav {
  wav_name : string;
  wav_format : option AudioFormat;
  wav_frames : list bytes;
  wav_closed : bool
}.

(** [BufferedReader.read(n)] on a blocking pipe: a [ValueError] for a size
    below -1, checked first, and for a closed pipe; otherwise exactly [n]
    bytes, fewer only at end-of-stream, and everything up to end-of-stream
    for [n = -1]. *)
Definition pipe_read (n : Z) (p : rpipe) : result (bytes * rpipe) :=
  if n <? -1 then Raise (ValueError "read length must be non-negative or -1")
  else if rclosed p then Raise (ValueError "read of closed file")
  else if n <? 0 then Ok (pending p, mkRpipe [] false)
  else Ok (firstn (Z.to_nat n) (pending p),
           mkRpipe (skipn (Z.to_nat n) (pending p)) false).

Definition set_stdout (o : rpipe) (pr : process) : process :=
  mkProcess (proc_cmd pr) (proc_stdin pr) (Some o) (proc_terminated pr) (proc_waited pr).

(** [process.stdout.read(n)] *)
Definition stdout_read (p : nat) (n : Z) : M host bytes :=
  fun h =>
    match get_proc p h with
    | None => (Raise (no_attribute "stdout"), h)
    | Some pr =>
      match proc_stdout pr with
      | None => (Raise (no_attribute "read"), h)
      | Some o =>
        match pipe_read n o with
        | Raise e => (Raise e, h)
        | Ok (data, o') => (Ok data, update_proc p (set_stdout o') h)
        end
      end
    end.

(** [process.stdout.close()] *)
Definition stdout_close (p : nat) : M host unit :=
  fun h =>
    match get_proc p h with
    | None => (Raise (no_attribute "stdout"), h)
    | Some pr =>
      match proc_stdout pr with
      | None => (Raise (no_attribute "close"), h)
      | Some o => (Ok tt, update_proc p (set_stdout (mkRpipe (pending o) true)) h)
      end
    end.

(** ** Recorder *)

Module Recorder.

(** The instance: the [_done] and [_started] events and the [_process]
    attribute, which does not exist before the first [record]. *)
Record t : Type := mk {
  _done : bool;
  _started : bool;
  _process : option nat
}.

Definition init : t := mk false false None.

(** What the caller of [record] observes, in order. *)
Inductive event : Type :=
| EvOnStart
| EvOnStop
| EvYield (data : bytes).

(** A recorder in its surroundings: the host, the wave files opened so
    far (a file handle is an index in the list), the failure of opening a
    wave file on this host, if any, and the events observed so far. *)
Record state : Type := mkState {
  self : t;
  on_host : host;
  wav_files : list wav_file;
  wave_error : option exn;
  observed : list event
}.

Definition set_self (r : t) (s : state) : state :=
  mkState r (on_host s) (wav_files s) (wave_error s) (observed s).

Definition set_wav_files (ws : list wav_file) (s : state) : state :=
  mkState (self s) (on_host s) ws (wave_error s) (observed s).

Definition emit (ev : event) (s : state) : state :=
  mkState (self s) (on_host s) (wav_files s) (wave_error s) (observed s ++ [ev]).

Definition in_host {A : Type} (m : M host A) : M state A :=
  fun s =>
    let (r, h) := m (on_host s) in
    (r, mkState (self s) h (wav_files s) (wave_error s) (observed s)).

(** [done(self)]: [self._done.set()] *)
Definition done (s : state) : state :=
  set_self (mk true (_started (self s)) (_process (self s))) s.

(** The arguments of [record]. *)
Record config : Type := mkConfig {
  fmt : AudioFormat;
  chunk_duration_sec : number;
  device : string;
  num_chunks : option Z;
  on_start : option callback;
  on_stop : option callback;
  filename : option string
}.

(** The local variables the loop keeps: [chunk_size], [wav_file] and the
    iterator of the [for], which is the number of items [range] still
    holds, or [None] for [itertools.count()]. *)
Record locals : Type := mkLocals {
  chunk_size : Z;
  wav_file : option nat;
  iterator : option nat
}.

(** [range(num_chunks) if num_chunks else itertools.count()]: zero is
    false like [None]; a negative bound gives an empty range. *)
Definition loop_iterator (num_chunks : option Z) : option nat :=
  match num_chunks with
  | None => None
  | Some n => if n =? 0 then None else Some (Z.to_nat n)
  end.

(** [if filename:] *)
Definition truthy_filename (filename : option string) : option string :=
  match filename with
  | None => None
  | Some EmptyString => None
  | Some name => Some name
  end.

(** [wave.open(filename, 'wb')] *)
Definition wave_open (name : string) : M state nat :=
  fun s =>
    match wave_error s with
    | Some e => (Raise e, s)
    | None =>
      (Ok (List.length (wav_files s)),
       set_wav_files (wav_files s ++ [mkWav name None [] false]) s)
    end.

(** [wave_set_format(wav_file, fmt)]: [setnchannels], [setsampwidth] and
    [setframerate] in this order; each checks its argument and raises
    [wave.Error] on a channel count below 1, a sample width outside 1..4,
    a frame rate not above 0.  [wav_format] is the header once all three
    fields are set. *)
Definition wave_set_format (w : nat) (f : AudioFormat) : M state unit :=
  if num_channels f <? 1 then raise (WaveError "bad # of channels")
  else if (bytes_per_sample f <? 1) || (4 <? bytes_per_sample f)
  then raise (WaveError "bad sample width")
  else if sample_rate_hz f <=? 0 then raise (WaveError "bad frame rate")
  else
  modify (fun s =>
    set_wav_files
      (update_nth w (fun file => mkWav (wav_name file) (Some f) (wav_frames file)
                                   (wav_closed file))
         (wav_files s)) s).

(** [wav_file.writeframes(data)]; [fault] is the input/output error of
    this write, if any. *)
Definition writeframes (w : nat) (data : bytes) (fault : option exn) : M state unit :=
  fun s =>
    match fault with
    | Some e => (Raise e, s)
    | None =>
      (Ok tt,
       set_wav_files
         (update_nth w (fun f => mkWav (wav_name f) (wav_format f)
                                   (wav_frames f ++ [data]) (wav_closed f))
            (wav_files s)) s)
    end.

(** [wav_file.close()] *)
Definition wave_close (w : nat) : M state unit :=
  modify (fun s =>
    set_wav_files
      (update_nth w (fun f => mkWav (wav_name f) (wav_format f) (wav_frames f) true)
         (wav_files s)) s).

Definition call_back (ev : event) (cb : option callback) : M state unit :=
  match cb with
  | None => ret tt
  | Some f => fun s => (call f, emit ev s)
  end.

(** [self._process], read when it is used. *)
Definition the_process : M state nat :=
  fun s =>
    match _process (self s) with
    | Some p => (Ok p, s)
    | None => (Raise (AttributeError "Recorder object has no attribute _process"), s)
    end.

(** [int(chunk_duration_sec * fmt.bytes_per_second)] *)
Definition chunk_size_of (c : config) : result Z :=
  x <- mul_int (chunk_duration_sec c) (bytes_per_second (fmt c)) ;;
  int x.

(** The body of [record] up to the [try]. *)
Definition prologue (c : config) : M state locals :=
  chunk_size <~ lift (chunk_size_of c) ;;
  cmd <~ lift (arecord (Some (fmt c)) "raw" None (device c)) ;;
  wav_file <~ match truthy_filename (filename c) with
              | Some name =>
                w <~ wave_open name ;;
                _ <~ wave_set_format w (fmt c) ;;
                ret (Some w)
              | None => ret None
              end ;;
  process <~ in_host (Popen cmd false true) ;;
  _ <~ modify (fun s => set_self (mk (_done (self s)) (_started (self s)) (Some process)) s) ;;
  _ <~ modify (fun s => set_self (mk (_done (self s)) true (_process (self s))) s) ;;
  _ <~ call_back EvOnStart (on_start c) ;;
  ret (mkLocals chunk_size wav_file (loop_iterator (num_chunks c))).

(** The [finally] block. *)
Definition cleanup (c : config) (l : locals) : M state unit :=
  process <~ the_process ;;
  _ <~ in_host (stdout_close process) ;;
  _ <~ call_back EvOnStop (on_stop c) ;;
  match wav_file l with
  | Some w => wave_close w
  | None => ret tt
  end.

(** Where a generator made by [record] stands: not started yet, blocked
    in [stdout.read] inside the loop, suspended at the [yield], or
    finished, by returning or by an exception that left it. *)
Inductive gen_pc : Type :=
| Created
| Reading (l : locals)
| Suspended (l : locals)
| Finished (raised : option exn).

(** One generator and the recorder it belongs to; the generators of one
    recorder are driven one at a time. *)
Definition machine : Type := (gen_pc * state)%type.

(** Leaving the [try]: the [finally] block runs, and an exception it
    raises replaces the pending one. *)
Definition leave (c : config) (l : locals) (pending_exn : option exn) (s : state)
  : machine :=
  match cleanup c l s with
  | (Ok _, s') => (Finished pending_exn, s')
  | (Raise e, s') => (Finished (Some e), s')
  end.

(** The head of the loop, up to the read: the next item of the iterator,
    then the test of the done flag. *)
Definition loop_head (c : config) (l : locals) (s : state) : machine :=
  match iterator l with
  | Some O => leave c l None s
  | it =>
    let l' := mkLocals (chunk_size l) (wav_file l) (option_map Nat.pred it) in
    if _done (self s) then leave c l' None s
    else (Reading l', s)
  end.

(** How the blocked read and the write that follows it turn out: both
    succeed, the read raises [e], or the read returns and the write to the
    wave file, when there is one, raises [e]. *)
Inductive io_outcome : Type :=
| IoOk
| ReadError (e : exn)
| WriteError (e : exn).

(** From the return of the read to the [yield]. *)
Definition loop_body (c : config) (l : locals) (o : io_outcome) (s : state) : machine :=
  match o with
  | ReadError e => leave c l (Some e) s
  | _ =>
    match (process <~ the_process ;; in_host (stdout_read process (chunk_size l))) s with
    | (Raise e, s') => leave c l (Some e) s'
    | (Ok [], s') => leave c l None s'
    | (Ok data, s') =>
      let fault := match o with WriteError e => Some e | _ => None end in
      match wav_file l with
      | Some w =>
        match writeframes w data fault s' with
        | (Raise e, s'') => leave c l (Some e) s''
        | (Ok _, s'') => (Suspended l, emit (EvYield data) s'')
        end
      | None => (Suspended l, emit (EvYield data) s')
      end
    end
  end.

(** What can happen to a generator and its recorder: the consumer calls
    [next()], the consumer calls [throw(e)] ([close()] is
    [throw(GeneratorExit)]), the blocked read returns, or some thread calls
    [done()]. *)
Inductive action : Type :=
| ANext
| AThrow (e : exn)
| ARead (o : io_outcome)
| ADone.

Definition step (c : config) (a : action) (m : machine) : machine :=
  let (pc, s) := m in
  match a, pc with
  | ADone, _ => (pc, done s)
  | ANext, Created =>
    match prologue c s with
    | (Ok l, s') => loop_head c l s'
    | (Raise e, s') => (Finished (Some e), s')
    end
  | ANext, Suspended l => loop_head c l s
  | AThrow e, Created => (Finished (Some e), s)
  | AThrow e, Suspended l => leave c l (Some e) s
  | ARead o, Reading l => loop_body c l o s
  | _, _ => m
  end.

Definition exec (c : config) (acts : list action) (m : machine) : machine :=
  fold_left (fun m a => step c a m) acts m.

(** [record(...)]: calling the generator function runs none of its body. *)
Definition record (s : state) : machine := (Created, s).

(** A consumer that takes every chunk, as [for chunk in r.record(...)]
    does, with no other thread and no input/output error. *)
Fixpoint drain (c : config) (fuel : nat) (m : machine) : machine :=
  match fuel with
  | O => m
  | S fuel' =>
    match fst m with
    | Finished _ => m
    | Reading _ => drain c fuel' (step c (ARead IoOk) m)
    | _ => drain c fuel' (step c ANext m)
    end
  end.

Fixpoint chunks_of (evs : list event) : list bytes :=
  match evs with
  | [] => []
  | EvYield data :: evs' => data :: chunks_of evs'
  | _ :: evs' => chunks_of evs'
  end.

(** The chunks yielded so far. *)
Definition yielded (m : machine) : list bytes := chunks_of (observed (snd m)).

Definition count_event (ev : event) (evs : list event) : nat :=
  List.length (filter (fun e => match e, ev with
                                | EvOnStart, EvOnStart => true
                                | EvOnStop, EvOnStop => true
                                | _, _ => false
                                end) evs).

(** Several calls of [record] on one recorder, one after the other, each
    generator driven by its own actions. *)
Definition session (runs : list (config * list action)) (s : state) : state :=
  fold_left (fun s run => snd (exec (fst run) (snd run) (record s))) runs s.

End Recorder.

(** ** Notions used by the statements *)

(** [b'abc'] *)
Definition abc : bytes := [x61; x62; x63].

(** A small recording: two-byte chunks out of a stream of five bytes, at
    most two of them, written to a wave file as well. *)
Definition small : Recorder.config :=
  Recorder.mkConfig (mkAudioFormat 2 1 1) (NInt 1) "default" (Some 2)
    (Some (mkCallback None)) (Some (mkCallback None)) (Some "out.wav").

Definition small_state : Recorder.state :=
  Recorder.mkState Recorder.init
    (mkHost [] None (fun _ => [x01; x02; x03; x04; x05])) [] None [].

Definition small_locals : Recorder.locals := Recorder.mkLocals 2 (Some O) (Some 2%nat).

(** The same recording asked for with [num_chunks=0]. *)
Definition zero_chunks : Recorder.config :=
  Recorder.mkConfig (mkAudioFormat 2 1 1) (NInt 1) "default" (Some 0)
    (Some (mkCallback None)) (Some (mkCallback None)) (Some "out.wav").

(** The float [0.1]. *)
Definition tenth : spec_float := S754_finite false 7205759403792794 (-56).

(** The scenario of the specification: 16 kHz mono 16-bit audio in chunks
    of a tenth of a second, from a stream of three full chunks. *)
Definition scenario : Recorder.config :=
  Recorder.mkConfig (mkAudioFormat 16000 1 2) (NFloat tenth) "default" None
    None (Some (mkCallback None)) None.

Definition scenario_state : Recorder.state :=
  Recorder.mkState Recorder.init
    (mkHost [] None (fun _ => repeat x00 (Z.to_nat 9600))) [] None [].

(** The first [k] reads of [size] bytes from a stream holding [data], up to
    the first empty one. *)
Fixpoint take_chunks (k size : nat) (data : bytes) : list bytes :=
  match k with
  | O => []
  | S k' =>
    match firstn size data with
    | [] => []
    | chunk => chunk :: take_chunks k' size (skipn size data)
    end
  end.

(** Following the specification: the number of chunks of [size] bytes until
    the stream ends, the last one possibly short. *)
Definition chunks_until_stream_end (size : nat) (data : bytes) : nat :=
  (List.length data + size - 1) / size.

(** The event of a callback, when the callback is provided. *)
Definition when_provided (cb : option callback) (ev : Recorder.event)
  : list Recorder.event :=
  match cb with
  | Some _ => [ev]
  | None => []
  end.

(** A callback that returns normally when it is called. *)
Definition returns_normally (cb : option callback) : Prop :=
  forall f, cb = Some f -> cb_raises f = None.

(** What no step but a [yield] or [done()] changes: the done flag and the
    chunks yielded so far. *)
Definition stable (s : Recorder.state) : bool * list bytes :=
  (Recorder._done (Recorder.self s), Recorder.chunks_of (Recorder.observed s)).

(** Inside the loop the recorder holds the output pipe of its process [p]
    and, when it writes one, the wave file [wav] named [name]; [on_stop] has
    been invoked [stops] times so far. *)
Definition holds (p : nat) (wav : option nat) (name : string) (stops : nat)
    (s : Recorder.state) : Prop :=
  Recorder._process (Recorder.self s) = Some p /\
  (exists pr o, get_proc p (Recorder.on_host s) = Some pr /\ proc_stdout pr = Some o) /\
  (forall w, wav = Some w ->
     exists f, nth_error (Recorder.wav_files s) w = Some f /\ wav_name f = name) /\
  Recorder.count_event Recorder.EvOnStop (Recorder.observed s) = stops.

(** After the [finally] block: the pipe is closed, [on_stop] has been
    invoked once more if it is provided, and the wave file is closed when
    that call of [on_stop] returned. *)
Definition cleaned_up (c : Recorder.config) (p : nat) (wav : option nat)
    (name : string) (stops : nat) (s : Recorder.state) : Prop :=
  (exists pr o, get_proc p (Recorder.on_host s) = Some pr /\
                proc_stdout pr = Some o /\ rclosed o = true) /\
  Recorder.count_event Recorder.EvOnStop (Recorder.observed s) =
    (stops + List.length (when_provided (Recorder.on_stop c) Recorder.EvOnStop))%nat /\
  (returns_normally (Recorder.on_stop c) ->
   forall w, wav = Some w ->
     exists f, nth_error (Recorder.wav_files s) w = Some f /\
               wav_name f = name /\ wav_closed f = true).

(** The invariant of a generator that has reached the loop. *)
Definition run_inv (c : Recorder.config) (p : nat) (wav : option nat)
    (name : string) (stops : nat) (m : Recorder.machine) : Prop :=
  match fst m with
  | Recorder.Created => False
  | Recorder.Reading l | Recorder.Suspended l =>
    Recorder.wav_file l = wav /\ holds p wav name stops (snd m)
  | Recorder.Finished _ => cleaned_up c p wav name stops (snd m)
  end.

(** The recorder is not asked to stop and its process [p] still has [data]
    to deliver on an open pipe. *)
Definition ready (p : nat) (data : bytes) (s : Recorder.state) : Prop :=
  Recorder._done (Recorder.self s) = false /\
  Recorder._process (Recorder.self s) = Some p /\
  exists pr, get_proc p (Recorder.on_host s) = Some pr /\
             proc_stdout pr = Some (mkRpipe data false).

(** No read is in flight. *)
Definition not_reading (m : Recorder.machine) : Prop :=
  forall l, fst m <> Recorder.Reading l.

Definition keeps {A : Type} (m : M Recorder.state A) : Prop :=
  forall s, stable (snd (m s)) = stable s.

(** The calls made so far on the standard input of process [p]. *)
Definition stdin_log (p : nat) (h : host) : option (list stdin_call) :=
  match get_proc p h with
  | Some pr => proc_stdin pr
  | None => None
  end.

(** The optional trailing file name of a command. *)
Definition optional_arg (filename : option string) : list string :=
  match filename with
  | Some f => [f]
  | None => []
  end.

(** ** Callers of the module *)

(** A caller that feeds [push] one value after the other and stops at the
    first exception. *)
Fixpoint push_each (push : option bytes -> M host unit) (values : list (option bytes))
  : M host unit :=
  match values with
  | [] => ret tt
  | v :: values' => _ <~ push v ;; push_each push values'
  end.

(** The bytes written to a pipe before it was first closed. *)
Fixpoint delivered (calls : list stdin_call) : bytes :=
  match calls with
  | [] => []
  | SClose :: _ => []
  | SWrite data :: calls' => data ++ delivered calls'
  end.


(** [Recorder.join], which [Recorder.__exit__] calls:
    [self._started.wait()], then [self._process.wait()]; [exits] tells
    whether a capture process ever exits. *)
Definition recorder_join (exits : process -> bool) (s : Recorder.state)
  : outcome Recorder.state :=
  if Recorder._started (Recorder.self s) then
    match Recorder.the_process s with
    | (Raise e, s') => Returned (Raise e) s'
    | (Ok process, s') =>
      match wait_for exits process (Recorder.on_host s') with
      | Returned r h =>
        Returned r (Recorder.mkState (Recorder.self s') h (Recorder.wav_files s')
                      (Recorder.wave_error s') (Recorder.observed s'))
      | Blocked => Blocked
      end
    end
  else Blocked.

(** What [join] depends on: the started flag, the [_process] attribute and
    how many processes the host has seen. *)
Definition tie (s : Recorder.state) : bool * option nat * nat :=
  (Recorder._started (Recorder.self s), Recorder._process (Recorder.self s),
   List.length (procs (Recorder.on_host s))).

Definition steady {A : Type} (m : M Recorder.state A) : Prop :=
  forall s, tie (snd (m s)) = tie s.

(** Once started is signalled, [_process] is a process of the host. *)
Definition joinable (s : Recorder.state) : Prop :=
  Recorder._started (Recorder.self s) = true ->
  exists p, Recorder._process (Recorder.self s) = Some p /\
            (p < List.length (procs (Recorder.on_host s)))%nat.

(** ** The invariant of a run of [record]

    For a generator that has reached the loop: [p] is its process, [data]
    what the process delivers in all, [obs1] the events observed when the loop
    was entered, [wav] the wave file it writes.  [chunks] are the chunks
    yielded so far, [rest] what the pipe still holds, [lost] what was read
    but not yielded. *)
Definition run_facts (p : nat) (data : bytes) (obs1 : list Recorder.event)
    (wav : option nat) (closed : bool) (tail : list Recorder.event)
    (chunks : list bytes) (rest lost : bytes) (s : Recorder.state) : Prop :=
  Recorder._process (Recorder.self s) = Some p /\
  (exists pr, get_proc p (Recorder.on_host s) = Some pr /\
              proc_stdout pr = Some (mkRpipe rest closed)) /\
  Recorder.observed s = obs1 ++ map Recorder.EvYield chunks ++ tail /\
  (forall w, wav = Some w ->
     nth_error (map wav_frames (Recorder.wav_files s)) w = Some chunks) /\
  List.concat chunks ++ lost ++ rest = data.

(** The iterator of the loop against the chunks yielded: with a bounded
    loop, the chunks yielded, the items left and the [pending] current
    iteration do not exceed the bound. *)
Definition iterator_fits (c : Recorder.config) (l : Recorder.locals) (pending : nat)
    (chunks : list bytes) : Prop :=
  match Recorder.loop_iterator (Recorder.num_chunks c), Recorder.iterator l with
  | Some n, Some k => (List.length chunks + k + pending <= n)%nat
  | None, None => True
  | _, _ => False
  end.

Definition well_sized (cs : Z) (chunks : list bytes) : Prop :=
  Forall (fun chunk : bytes =>
            chunk <> [] /\ (0 <= cs -> Z.of_nat (List.length chunk) <= cs)) chunks.

Definition trace_inv (c : Recorder.config) (p : nat) (data : bytes)
    (obs1 : list Recorder.event) (wav : option nat) (cs : Z)
    (m : Recorder.machine) : Prop :=
  exists chunks rest lost,
    well_sized cs chunks /\
    match fst m with
    | Recorder.Created => False
    | Recorder.Reading l =>
      Recorder.chunk_size l = cs /\ Recorder.wav_file l = wav /\ lost = [] /\
      iterator_fits c l 1 chunks /\
      run_facts p data obs1 wav false [] chunks rest lost (snd m)
    | Recorder.Suspended l =>
      Recorder.chunk_size l = cs /\ Recorder.wav_file l = wav /\ lost = [] /\
      iterator_fits c l 0 chunks /\
      run_facts p data obs1 wav false [] chunks rest lost (snd m)
    | Recorder.Finished r =>
      (r = None -> lost = []) /\
      (forall n, Recorder.loop_iterator (Recorder.num_chunks c) = Some n ->
                 (List.length chunks <= n)%nat) /\
      run_facts p data obs1 wav true
        (when_provided (Recorder.on_stop c) Recorder.EvOnStop) chunks rest lost (snd m)
    end.

(** What [stdout.read(cs)] takes from a pipe holding [rest], and leaves. *)
Definition read_split (cs : Z) (rest : bytes) : bytes * bytes :=
  if cs <? 0 then (rest, [])
  else (firstn (Z.to_nat cs) rest, skipn (Z.to_nat cs) rest).

(** A duration that is not negative: an [int] from 0 up, or a float that is
    not a negative finite number. *)
Definition non_negative (x : number) : Prop :=
  match x with
  | NInt n => 0 <= n
  | NFloat (S754_finite s _ _) => s = false
  | NFloat _ => True
  end.

(** A float whose sign bit, when it is a finite non-zero number, is clear. *)
Definition sign_clear (x : spec_float) : Prop :=
  match x with
  | S754_finite s _ _ => s = false
  | _ => True
  end.

(** * Verified properties *)

(** ** AudioFormat *)

(** C9: for every [AudioFormat(sr, ch, bps)] the derived [bytes_per_second]
    is the integer product [sr * ch * bps]. *)
Theorem bytes_per_second_product (sr ch bps : Z) :
  bytes_per_second (mkAudioFormat sr ch bps) = sr * ch * bps.
Proof. reflexivity. Qed.

(** ** Command builders *)

Lemma in_filetypes_iff (filetype : string) :
  existsb (String.eqb filetype) arecord_filetypes = true <->
  In filetype ["wav"; "raw"; "voc"; "au"].
Proof.
  unfold arecord_filetypes. rewrite existsb_exists. split.
  - intros [x [Hin Heq]]. apply String.eqb_eq in Heq. now subst.
  - intros Hin. exists filetype. split; [assumption | apply String.eqb_refl].
Qed.

(** C5: [arecord] raises [ValueError] when the format is absent and when
    the file type is none of wav, raw, voc, au; otherwise it returns, in
    order, the quiet flag, the file type, the device, the channel count, the
    sample format [s] followed by [8 * bytes_per_sample], the sample rate, and
    then the file name exactly when one is given. *)
Theorem arecord_spec (fmt : option AudioFormat) (filetype : string)
    (filename : option string) (device : string) :
  (fmt = None ->
   exists msg, arecord fmt filetype filename device = Raise (ValueError msg)) /\
  (~ In filetype ["wav"; "raw"; "voc"; "au"] ->
   exists msg, arecord fmt filetype filename device = Raise (ValueError msg)) /\
  (forall f, fmt = Some f -> In filetype ["wav"; "raw"; "voc"; "au"] ->
   arecord fmt filetype filename device =
   Ok (["arecord"; "-q"; "-t"; filetype; "-D"; device;
        "-c"; str (num_channels f);
        "-f"; "s" ++ str (8 * bytes_per_sample f);
        "-r"; str (sample_rate_hz f)]%string ++ optional_arg filename)).
Proof.
  split; [| split].
  - intros ->. simpl. eauto.
  - intros Hnot. unfold arecord. destruct fmt as [f |]; [| eauto].
    destruct (existsb (String.eqb filetype) arecord_filetypes) eqn:E.
    + apply in_filetypes_iff in E. contradiction.
    + simpl. eauto.
  - intros f -> Hin. unfold arecord.
    apply in_filetypes_iff in Hin. rewrite Hin. simpl.
    destruct filename; reflexivity.
Qed.

Lemma arecord_spec_witness :
  (exists msg, arecord None "raw" None "default" = Raise (ValueError msg)) /\
  (exists msg, arecord (Some CD) "mp3" None "default" = Raise (ValueError msg)) /\
  arecord (Some CD) "wav" (Some "out.wav") "plughw:1" =
  Ok ["arecord"; "-q"; "-t"; "wav"; "-D"; "plughw:1";
      "-c"; "2"; "-f"; "s16"; "-r"; "44100"; "out.wav"].
Proof.
  split; [| split].
  - apply (proj1 (arecord_spec None "raw" None "default")). reflexivity.
  - apply (proj1 (proj2 (arecord_spec (Some CD) "mp3" None "default"))).
    simpl. intros [H | [H | [H | [H | []]]]]; discriminate H.
  - apply (proj2 (proj2 (arecord_spec (Some CD) "wav" (Some "out.wav") "plughw:1")) CD).
    + reflexivity.
    + simpl. left. reflexivity.
Defined.

(** C4: [aplay] raises, and then a [ValueError], exactly when the file type
    is raw and the format is absent; with the format absent and any other
    file type it returns the command without the [-c], [-f] and [-r]
    arguments, and with a format it returns the command with them. *)
Theorem aplay_spec (fmt : option AudioFormat) (filetype : string)
    (filename : option string) (device : string) :
  ((exists e, aplay fmt filetype filename device = Raise e) <->
   (filetype = "raw" /\ fmt = None)) /\
  (forall e, aplay fmt filetype filename device = Raise e ->
   exists msg, e = ValueError msg) /\
  (fmt = None -> filetype <> "raw" ->
   aplay fmt filetype filename device =
   Ok (["aplay"; "-q"; "-t"; filetype; "-D"; device] ++ optional_arg filename)) /\
  (forall f, fmt = Some f ->
   aplay fmt filetype filename device =
   Ok (["aplay"; "-q"; "-t"; filetype; "-D"; device] ++
       ["-c"; str (num_channels f);
        "-f"; "s" ++ str (8 * bytes_per_sample f);
        "-r"; str (sample_rate_hz f)]%string ++ optional_arg filename)).
Proof.
  unfold aplay.
  destruct (String.eqb_spec filetype "raw") as [Hraw | Hraw];
    destruct fmt as [f |]; simpl;
    (split; [split | split; [| split]]).
  - intros [e He]. destruct filename; discriminate He.
  - intros [_ H]. discriminate H.
  - intros e He. destruct filename; discriminate He.
  - intros H. discriminate H.
  - intros f' H. injection H as <-. destruct filename; reflexivity.
  - intros _. split; [assumption | reflexivity].
  - intros _. eauto.
  - intros e He. injection He as <-. eauto.
  - intros _ H. contradiction.
  - intros f' H. discriminate H.
  - intros [e He]. destruct filename; discriminate He.
  - intros [H _]. contradiction.
  - intros e He. destruct filename; discriminate He.
  - intros H. discriminate H.
  - intros f' H. injection H as <-. destruct filename; reflexivity.
  - intros [e He]. destruct filename; discriminate He.
  - intros [H _]. contradiction.
  - intros e He. destruct filename; discriminate He.
  - intros _ _. destruct filename; reflexivity.
  - intros f' H. discriminate H.
Qed.

Lemma aplay_spec_witness :
  (exists e, aplay None "raw" None "default" = Raise e) /\
  aplay None "wav" (Some "in.wav") "default" =
  Ok ["aplay"; "-q"; "-t"; "wav"; "-D"; "default"; "in.wav"] /\
  aplay (Some CD) "raw" None "default" =
  Ok ["aplay"; "-q"; "-t"; "raw"; "-D"; "default";
      "-c"; "2"; "-f"; "s16"; "-r"; "44100"].
Proof.
  split; [| split].
  - apply (proj1 (aplay_spec None "raw" None "default")). split; reflexivity.
  - apply (proj1 (proj2 (proj2 (aplay_spec None "wav" (Some "in.wav") "default")))).
    + reflexivity.
    + intros H. discriminate H.
  - apply (proj2 (proj2 (proj2 (aplay_spec (Some CD) "raw" None "default"))) CD).
    reflexivity.
Defined.

(** ** Lists updated in place *)

Lemma nth_error_update_nth_eq {A : Type} (f : A -> A) (l : list A) (i : nat) :
  nth_error (update_nth i f l) i = option_map f (nth_error l i).
Proof.
  revert i. induction l as [| x l IH]; intros [| i]; simpl; auto.
Qed.

Lemma nth_error_update_nth_neq {A : Type} (f : A -> A) (l : list A) (i j : nat) :
  i <> j -> nth_error (update_nth i f l) j = nth_error l j.
Proof.
  revert i j. induction l as [| x l IH]; intros [| i] [| j] Hij; simpl; auto.
  contradiction.
Qed.

Lemma length_update_nth {A : Type} (f : A -> A) (l : list A) (i : nat) :
  List.length (update_nth i f l) = List.length l.
Proof.
  revert i. induction l as [| x l IH]; intros [| i]; simpl; auto.
Qed.

Lemma update_nth_snoc {A : Type} (f : A -> A) (l : list A) (x : A) :
  update_nth (List.length l) f (l ++ [x]) = l ++ [f x].
Proof.
  induction l as [| y l IH]; simpl; [reflexivity | rewrite IH; reflexivity].
Qed.

Lemma nth_error_snoc {A : Type} (l : list A) (x : A) :
  nth_error (l ++ [x]) (List.length l) = Some x.
Proof.
  rewrite nth_error_app2 by apply Nat.le_refl.
  rewrite Nat.sub_diag. reflexivity.
Qed.

Lemma get_proc_update_eq (p : nat) (f : process -> process) (h : host) :
  get_proc p (update_proc p f h) = option_map f (get_proc p h).
Proof. apply nth_error_update_nth_eq. Qed.

Lemma get_proc_update_neq (p q : nat) (f : process -> process) (h : host) :
  p <> q -> get_proc q (update_proc p f h) = get_proc q h.
Proof. apply nth_error_update_nth_neq. Qed.

(** ** Top-level helpers *)

(** C7, as the code behaves: given a path, [play_raw_async] raises
    [NameError] for the unbound name [filename] and spawns nothing;
    [play_raw] raises the same error for every input, byte buffer or path,
    before it spawns or waits for anything; an input of [play_raw_async] that
    is neither a byte buffer nor a string raises [ValueError]. *)
Theorem play_raw_unbound_filename (fmt : option AudioFormat) (h : host) :
  (forall path : string,
     play_raw_async fmt (VStr path) h = (Raise (NameError "filename"), h)) /\
  (forall input : pyval,
     play_raw fmt input h = (Raise (NameError "filename"), h)) /\
  (forall input : pyval,
     (forall b, input <> VBytes b) -> (forall s, input <> VStr s) ->
     play_raw_async fmt input h =
     (Raise (ValueError "Must be filename or byte-like object"), h)).
Proof.
  split; [| split].
  - intros path. reflexivity.
  - intros input. reflexivity.
  - intros input Hb Hs.
    destruct input; try reflexivity.
    + contradiction (Hs s). reflexivity.
    + contradiction (Hb b). reflexivity.
Qed.

Lemma play_raw_unbound_filename_witness :
  play_raw_async (Some CD) (VInt 7) (mkHost [] None (fun _ => [])) =
  (Raise (ValueError "Must be filename or byte-like object"),
   mkHost [] None (fun _ => [])).
Proof.
  apply (proj2 (proj2 (play_raw_unbound_filename (Some CD)
                         (mkHost [] None (fun _ => []))))).
  - intros b H. discriminate H.
  - intros s H. discriminate H.
Defined.

(** The sibling [play_wav_async] names its parameter and does spawn one
    player on the file. *)
Lemma play_wav_async_path (path : string) (h : host) :
  popen_error h = None ->
  play_wav_async (VStr path) h =
  (Ok (List.length (procs h)),
   set_procs (procs h ++
              [mkProcess ["aplay"; "-q"; "-t"; "wav"; "-D"; "default"; path]
                 None None false false]) h).
Proof.
  intros Hp. unfold play_wav_async, bindM, lift, Popen. simpl. rewrite Hp.
  reflexivity.
Qed.

(** ** Players *)

(** C8, as the code behaves: both entry points of [FilePlayer] are declared
    without [self]; whatever arguments a call passes, they raise ([NameError]
    for [self] when the call has one or two arguments beside the instance,
    resp. none or one for [play_wav]; [TypeError] otherwise), spawn no
    process and do not signal the started flag. *)
Theorem file_player_never_spawns (args : list pyval) (s : Player.state) :
  (exists e, FilePlayer.play_raw args s = (Raise e, s)) /\
  (exists e, FilePlayer.play_wav args s = (Raise e, s)) /\
  (forall a b, FilePlayer.play_raw [a; b] s = (Raise (NameError "self"), s)) /\
  (forall a, FilePlayer.play_wav [a] s = (Raise (NameError "self"), s)).
Proof.
  split; [| split; [| split]].
  - destruct args as [| a [| b [| c [| d args]]]]; eexists; reflexivity.
  - destruct args as [| a [| b [| c args]]]; eexists; reflexivity.
  - intros a b. reflexivity.
  - intros a. reflexivity.
Qed.

(** The sibling [BytesPlayer.play], declared with [self], spawns the player
    and signals the started flag. *)
Lemma bytes_player_play_spawns (f : AudioFormat) (device : string) (s : Player.state) :
  popen_error (Player.on_host s) = None ->
  exists push s',
    BytesPlayer.play (Some f) device s = (Ok push, s') /\
    Player._started (Player.self s') = true /\
    Player._process (Player.self s') = Some (List.length (procs (Player.on_host s))).
Proof.
  intros Hp. unfold BytesPlayer.play, Player.popen, Player.in_host, Popen,
    bindM, lift, modify, ret, aplay. simpl. rewrite Hp. simpl.
  eexists. eexists. split; [reflexivity | split; reflexivity].
Qed.

Lemma stdin_log_update_eq (p : nat) (c : stdin_call) (h : host) (calls : list stdin_call) :
  stdin_log p h = Some calls ->
  stdin_log p (update_proc p (log_stdin c) h) = Some (calls ++ [c]).
Proof.
  unfold stdin_log. rewrite get_proc_update_eq.
  destruct (get_proc p h) as [pr |]; simpl; [| discriminate].
  intros ->. reflexivity.
Qed.

Lemma push_write (p : nat) (data : bytes) (h : host) (calls : list stdin_call) :
  stdin_log p h = Some calls -> data <> [] ->
  snd (BytesPlayer.push p (Some data) h) = update_proc p (log_stdin (SWrite data)) h.
Proof.
  intros Hlog Hdata. unfold stdin_log in Hlog.
  destruct data as [| b data]; [contradiction |].
  unfold BytesPlayer.push, stdin_write. simpl.
  destruct (get_proc p h) as [pr |]; [| discriminate].
  rewrite Hlog. reflexivity.
Qed.

Lemma push_close (p : nat) (data : option bytes) (h : host) (calls : list stdin_call) :
  stdin_log p h = Some calls -> truthy_bytes data = false ->
  BytesPlayer.push p data h = (Ok tt, update_proc p (log_stdin SClose) h).
Proof.
  intros Hlog Hdata. unfold stdin_log in Hlog.
  assert (Hpush : BytesPlayer.push p data h = stdin_close p h).
  { destruct data as [[| b data] |]; try reflexivity. discriminate Hdata. }
  rewrite Hpush. unfold stdin_close.
  destruct (get_proc p h) as [pr |]; [| discriminate].
  rewrite Hlog. reflexivity.
Qed.

(** C6: when [BytesPlayer.play] returns, the returned [push] is bound to the
    process it spawned, whose input pipe has seen no call yet.  On any host
    where that pipe has seen the calls [calls], [push] of a non-empty chunk
    adds exactly the one call [write(chunk)], [push] of [None] or of the empty
    chunk adds exactly the one call [close()], and no other process is
    touched; [push(b'abc')] then [push(b'')] right after [play] leaves the
    pipe with exactly one write of [b'abc'] followed by one close. *)
Theorem push_spec (fmt : option AudioFormat) (device : string)
    (s s' : Player.state) (push : option bytes -> M host unit) :
  BytesPlayer.play fmt device s = (Ok push, s') ->
  exists p,
    Player._process (Player.self s') = Some p /\
    stdin_log p (Player.on_host s') = Some [] /\
    (forall h calls, stdin_log p h = Some calls ->
       (forall data, data <> [] ->
          stdin_log p (snd (push (Some data) h)) = Some (calls ++ [SWrite data])) /\
       (forall data, data = None \/ data = Some [] ->
          stdin_log p (snd (push data h)) = Some (calls ++ [SClose])) /\
       (forall data q, q <> p ->
          get_proc q (snd (push data h)) = get_proc q h)) /\
    stdin_log p (snd (push (Some []) (snd (push (Some abc) (Player.on_host s')))))
    = Some [SWrite abc; SClose].
Proof.
  unfold BytesPlayer.play, Player.popen, Player.in_host, Popen, bindM, lift,
    modify, ret.
  destruct (aplay fmt "raw" None device) as [cmd | e]; [| discriminate].
  destruct s as [self h0]. simpl.
  destruct (popen_error h0) eqn:Hp; simpl; [discriminate |].
  intros H. injection H as <- <-.
  exists (List.length (procs h0)).
  assert (Hnew : stdin_log (List.length (procs h0))
                   (set_procs (procs h0 ++ [mkProcess cmd (Some []) None false false]) h0)
                 = Some []).
  { unfold stdin_log, get_proc. simpl. rewrite nth_error_snoc. reflexivity. }
  split; [reflexivity | split; [exact Hnew | split]].
  - intros h calls Hlog. split; [| split].
    + intros data Hdata. rewrite (@push_write _ data h calls Hlog Hdata).
      apply stdin_log_update_eq. assumption.
    + intros data Hdata.
      rewrite (@push_close _ data h calls Hlog).
      * apply stdin_log_update_eq. assumption.
      * destruct Hdata as [-> | ->]; reflexivity.
    + intros data q Hq.
      destruct (truthy_bytes data) eqn:Ht.
      * destruct data as [[| b data] |]; try discriminate Ht.
        rewrite (@push_write _ (b :: data) h calls Hlog) by discriminate.
        apply get_proc_update_neq. auto.
      * rewrite (@push_close _ data h calls Hlog Ht).
        apply get_proc_update_neq. auto.
  - cbn [Player.on_host].
    rewrite (@push_write _ abc _ [] Hnew) by discriminate.
    pose proof (@stdin_log_update_eq _ (SWrite abc) _ _ Hnew) as Hw.
    rewrite (@push_close _ (Some []) _ _ Hw eq_refl).
    apply (@stdin_log_update_eq _ SClose _ _ Hw).
Qed.

Lemma push_spec_witness :
  exists p,
    stdin_log p (snd (BytesPlayer.push 0 (Some [])
                        (snd (BytesPlayer.push 0 (Some abc)
                           (mkHost [mkProcess ["aplay"; "-q"; "-t"; "raw"; "-D"; "default";
                                               "-c"; "2"; "-f"; "s16"; "-r"; "44100"]
                                      (Some []) None false false]
                                   None (fun _ => []))))))
    = Some [SWrite abc; SClose].
Proof.
  destruct (@push_spec (Some CD) "default"
              (Player.mkState Player.init (mkHost [] None (fun _ => [])))
              _ _ eq_refl) as [p [_ [_ [_ H]]]].
  exists p. exact H.
Defined.

(** ** Recorder: what the steps leave alone *)

Section RecorderFrame.

Import Recorder.

Lemma chunks_of_app (evs evs' : list event) :
  chunks_of (evs ++ evs') = chunks_of evs ++ chunks_of evs'.
Proof.
  induction evs as [| ev evs IH]; simpl; [reflexivity |].
  destruct ev; simpl; rewrite IH; reflexivity.
Qed.

Lemma keeps_ret {A : Type} (a : A) : keeps (ret a).
Proof. intros s. reflexivity. Qed.

Lemma keeps_lift {A : Type} (r : result A) : keeps (lift r).
Proof. intros s. reflexivity. Qed.

Lemma keeps_bind {A B : Type} (m : M state A) (k : A -> M state B) :
  keeps m -> (forall a, keeps (k a)) -> keeps (bindM m k).
Proof.
  intros Hm Hk s. unfold bindM.
  specialize (Hm s). destruct (m s) as [[a | e] s']; simpl in *.
  - rewrite Hk. assumption.
  - assumption.
Qed.

Lemma keeps_in_host {A : Type} (m : M host A) : keeps (in_host m).
Proof.
  intros s. unfold in_host. destruct (m (on_host s)) as [r h]. reflexivity.
Qed.

Lemma keeps_modify (g : state -> state) :
  (forall s, stable (g s) = stable s) -> keeps (modify g).
Proof. intros Hg s. apply Hg. Qed.

Lemma keeps_call_back (ev : event) (cb : option callback) :
  (forall data, ev <> EvYield data) -> keeps (call_back ev cb).
Proof.
  intros Hev s. destruct cb as [f |]; [| reflexivity].
  unfold call_back, stable. simpl. rewrite chunks_of_app.
  destruct ev; simpl; try (rewrite app_nil_r; reflexivity).
  contradiction (Hev data). reflexivity.
Qed.

Lemma keeps_the_process : keeps the_process.
Proof.
  intros s. unfold the_process. destruct (_process (self s)); reflexivity.
Qed.

Lemma keeps_wave_open (name : string) : keeps (wave_open name).
Proof.
  intros s. unfold wave_open. destruct (wave_error s); reflexivity.
Qed.

Lemma keeps_writeframes (w : nat) (data : bytes) (fault : option exn) :
  keeps (writeframes w data fault).
Proof. intros s. unfold writeframes. destruct fault; reflexivity. Qed.

Lemma wave_set_format_cases (w : nat) (f : AudioFormat) (s : state) :
  (exists e, wave_set_format w f s = (Raise e, s)) \/
  wave_set_format w f s =
    (Ok tt,
     set_wav_files
       (update_nth w (fun file => mkWav (wav_name file) (Some f) (wav_frames file)
                                    (wav_closed file))
          (wav_files s)) s).
Proof.
  unfold wave_set_format.
  destruct (num_channels f <? 1); [left; eexists; reflexivity |].
  destruct ((bytes_per_sample f <? 1) || (4 <? bytes_per_sample f));
    [left; eexists; reflexivity |].
  destruct (sample_rate_hz f <=? 0); [left; eexists; reflexivity |].
  right. reflexivity.
Qed.

Lemma keeps_wave_set_format (w : nat) (f : AudioFormat) : keeps (wave_set_format w f).
Proof.
  intros s.
  destruct (wave_set_format_cases w f s) as [[e H] | H]; rewrite H; reflexivity.
Qed.

Lemma keeps_prologue (c : config) : keeps (prologue c).
Proof.
  unfold prologue.
  apply keeps_bind; [apply keeps_lift | intros cs].
  apply keeps_bind; [apply keeps_lift | intros cmd].
  apply keeps_bind.
  { destruct (truthy_filename (filename c)); [| apply keeps_ret].
    apply keeps_bind; [apply keeps_wave_open | intros w].
    apply keeps_bind; [apply keeps_wave_set_format | intros _; apply keeps_ret]. }
  intros w.
  apply keeps_bind; [apply keeps_in_host | intros p].
  apply keeps_bind; [apply keeps_modify; reflexivity | intros _].
  apply keeps_bind; [apply keeps_modify; reflexivity | intros _].
  apply keeps_bind; [apply keeps_call_back; discriminate | intros _].
  apply keeps_ret.
Qed.

Lemma keeps_cleanup (c : config) (l : locals) : keeps (cleanup c l).
Proof.
  unfold cleanup.
  apply keeps_bind; [apply keeps_the_process | intros p].
  apply keeps_bind; [apply keeps_in_host | intros _].
  apply keeps_bind; [apply keeps_call_back; discriminate | intros _].
  destruct (wav_file l); [| apply keeps_ret].
  apply keeps_modify. reflexivity.
Qed.

Lemma leave_finished (c : config) (l : locals) (pending_exn : option exn) (s : state) :
  exists r, fst (leave c l pending_exn s) = Finished r.
Proof.
  unfold leave. destruct (cleanup c l s) as [[u | e] s']; simpl; eauto.
Qed.

Lemma leave_stable (c : config) (l : locals) (pending_exn : option exn) (s : state) :
  stable (snd (leave c l pending_exn s)) = stable s.
Proof.
  unfold leave. pose proof (keeps_cleanup c l s) as H.
  destruct (cleanup c l s) as [[u | e] s']; exact H.
Qed.

Lemma loop_head_stable (c : config) (l : locals) (s : state) :
  stable (snd (loop_head c l s)) = stable s.
Proof.
  unfold loop_head.
  destruct (iterator l) as [[| k] |]; try apply leave_stable;
    destruct (_done (self s)); try apply leave_stable; reflexivity.
Qed.

Lemma loop_head_when_done (c : config) (l : locals) (s : state) :
  _done (self s) = true -> exists r, fst (loop_head c l s) = Finished r.
Proof.
  intros Hd. unfold loop_head. rewrite Hd.
  destruct (iterator l) as [[| k] |]; apply leave_finished.
Qed.

(** One turn of the loop body: the generator finishes without a chunk,
    or it suspends at the [yield] with one more, non-empty chunk. *)
Lemma loop_body_cases (c : config) (l : locals) (o : io_outcome) (s : state) :
  ((exists r, fst (loop_body c l o s) = Finished r) /\
   stable (snd (loop_body c l o s)) = stable s) \/
  (fst (loop_body c l o s) = Suspended l /\
   exists data, data <> [] /\
     stable (snd (loop_body c l o s)) = (fst (stable s), snd (stable s) ++ [data])).
Proof.
  assert (Hread : keeps (process <~ the_process ;;
                         in_host (stdout_read process (chunk_size l)))).
  { apply keeps_bind; [apply keeps_the_process | intros p; apply keeps_in_host]. }
  assert (Hleave : forall p s' , stable s' = stable s ->
    (exists r, fst (leave c l p s') = Finished r) /\
    stable (snd (leave c l p s')) = stable s).
  { intros p s' Hs'. split; [apply leave_finished |].
    rewrite leave_stable. assumption. }
  unfold loop_body.
  destruct o as [| e | e]; try (left; apply Hleave; reflexivity);
    specialize (Hread s);
    destruct ((process <~ the_process ;;
               in_host (stdout_read process (chunk_size l))) s)
      as [[[| b data] | e'] s'];
    simpl in Hread; try (left; apply Hleave; assumption);
    destruct (wav_file l) as [w |]; simpl.
  - right. split; [reflexivity |]. exists (b :: data). split; [discriminate |].
    unfold stable in *. simpl. rewrite chunks_of_app. simpl.
    injection Hread as -> ->. reflexivity.
  - right. split; [reflexivity |]. exists (b :: data). split; [discriminate |].
    unfold stable in *. simpl. rewrite chunks_of_app. simpl.
    injection Hread as -> ->. reflexivity.
  - left. apply Hleave. assumption.
  - right. split; [reflexivity |]. exists (b :: data). split; [discriminate |].
    unfold stable in *. simpl. rewrite chunks_of_app. simpl.
    injection Hread as -> ->. reflexivity.
Qed.

End RecorderFrame.

(** ** Recorder: the done flag *)

Section RecorderDone.

Import Recorder.

Variable c : config.

(** With the flag set, a generator that is not inside a read never gets
    to one and yields nothing. *)
Lemma step_done_idle (a : action) (m : machine) :
  _done (self (snd m)) = true -> not_reading m ->
  _done (self (snd (step c a m))) = true /\
  not_reading (step c a m) /\
  yielded (step c a m) = yielded m.
Proof.
  destruct m as [pc s]. simpl. intros Hd Hnr.
  assert (Hfin : forall m', (exists r, fst m' = Finished r) ->
                 stable (snd m') = stable s ->
                 _done (self (snd m')) = true /\ not_reading m' /\
                 yielded m' = yielded (pc, s)).
  { intros m' [r Hr] Hst. unfold stable in Hst. injection Hst as Hd' Hy.
    repeat split.
    - rewrite Hd'. assumption.
    - intros l. rewrite Hr. discriminate.
    - exact Hy. }
  destruct a as [| e | o |]; destruct pc as [| l | l | r]; simpl;
    try (repeat split; [assumption | exact Hnr]);
    try (contradiction (Hnr l); reflexivity).
  - (* next() on a fresh generator *)
    pose proof (keeps_prologue c s) as Hp.
    destruct (prologue c s) as [[l | e] s']; simpl in Hp.
    + assert (Hd' : _done (self s') = true).
      { unfold stable in Hp. injection Hp as -> _. assumption. }
      apply Hfin; [apply loop_head_when_done; assumption |].
      rewrite loop_head_stable. assumption.
    + apply Hfin; [eexists; reflexivity | assumption].
  - (* next() at the yield *)
    apply Hfin; [apply loop_head_when_done; assumption | apply loop_head_stable].
  - (* throw() on a fresh generator *)
    apply (Hfin (Finished (Some e), s)); [eexists; reflexivity | reflexivity].
  - (* throw() at the yield *)
    apply Hfin; [apply leave_finished | apply leave_stable].
  - (* done() on a fresh, a suspended, a finished generator *)
    repeat split. intros l. discriminate.
  - repeat split. intros l'. discriminate.
  - repeat split. intros l. discriminate.
Qed.

(** With the flag set, the read in flight can still deliver one chunk. *)
Lemma step_done_reading (a : action) (l : locals) (s : state) :
  _done (self s) = true ->
  _done (self (snd (step c a (Reading l, s)))) = true /\
  ((fst (step c a (Reading l, s)) = Reading l /\
    yielded (step c a (Reading l, s)) = yielded (Reading l, s)) \/
   (not_reading (step c a (Reading l, s)) /\
    exists extra, (List.length extra <= 1)%nat /\
      yielded (step c a (Reading l, s)) = yielded (Reading l, s) ++ extra)).
Proof.
  intros Hd.
  destruct a as [| e | o |]; simpl;
    try (split; [assumption | left; split; reflexivity]).
  destruct (loop_body_cases c l o s) as [[[r Hr] Hst] | [Hs [data [_ Hst]]]];
    unfold stable in Hst; injection Hst as Hd' Hy; (split; [congruence |]);
    right; split.
  - intros l'. rewrite Hr. discriminate.
  - exists []. split; [simpl; lia |].
    unfold yielded. rewrite Hy. rewrite app_nil_r. reflexivity.
  - intros l'. rewrite Hs. discriminate.
  - exists [data]. split; [simpl; lia |].
    unfold yielded. rewrite Hy. reflexivity.
  - split; [reflexivity | left; split; reflexivity].
Qed.

Lemma exec_done_idle (acts : list action) (m : machine) :
  _done (self (snd m)) = true -> not_reading m ->
  _done (self (snd (exec c acts m))) = true /\
  yielded (exec c acts m) = yielded m.
Proof.
  revert m. induction acts as [| a acts IH]; intros m Hd Hnr; simpl.
  - split; [assumption | reflexivity].
  - destruct (step_done_idle a m Hd Hnr) as [Hd' [Hnr' Hy]].
    destruct (IH _ Hd' Hnr') as [Hd'' Hy'].
    split; [assumption | congruence].
Qed.

Lemma exec_done (acts : list action) (m : machine) :
  _done (self (snd m)) = true ->
  _done (self (snd (exec c acts m))) = true /\
  exists extra,
    yielded (exec c acts m) = yielded m ++ extra /\
    (List.length extra <= 1)%nat /\
    (not_reading m -> extra = []).
Proof.
  revert m. induction acts as [| a acts IH]; intros m Hd.
  - simpl. split; [assumption |]. exists []. rewrite app_nil_r.
    repeat split. simpl. lia.
  - change (exec c (a :: acts) m) with (exec c acts (step c a m)).
    destruct m as [pc s].
    assert (Hidle : not_reading (pc, s) ->
              _done (self (snd (exec c acts (step c a (pc, s))))) = true /\
              yielded (exec c acts (step c a (pc, s))) = yielded (pc, s)).
    { intros Hnr. destruct (step_done_idle a (pc, s) Hd Hnr) as [Hd' [Hnr' Hy]].
      destruct (exec_done_idle acts _ Hd' Hnr') as [Hd'' Hy'].
      split; [assumption | congruence]. }
    destruct pc as [| l | l | r].
    2: { (* a read is in flight *)
      simpl in Hd.
      destruct (step_done_reading a l s Hd) as [Hd' [[Hpc Hy] | [Hnr [extra [Hlen Hy]]]]].
      - destruct (IH _ Hd') as [Hd'' [extra [Hy' [Hlen Hnil]]]].
        split; [assumption |]. exists extra. repeat split.
        + rewrite Hy', Hy. reflexivity.
        + assumption.
        + intros Hnr. contradiction (Hnr l). reflexivity.
      - destruct (exec_done_idle acts _ Hd' Hnr) as [Hd'' Hy'].
        split; [assumption |]. exists extra. repeat split.
        + rewrite Hy', Hy. reflexivity.
        + assumption.
        + intros Hnr'. contradiction (Hnr' l). reflexivity. }
    all: (destruct Hidle as [Hd' Hy]; [intros ?; discriminate |];
          split; [assumption |]; exists []; rewrite app_nil_r;
          repeat split; [assumption | simpl; lia]).
Qed.

End RecorderDone.

(** ** Recorder: the prologue and the [finally] block *)

Section RecorderEnds.

Import Recorder.

Variable c : config.

Lemma record_command :
  arecord (Some (fmt c)) "raw" None (device c) =
  Ok ["arecord"; "-q"; "-t"; "raw"; "-D"; device c;
      "-c"; str (num_channels (fmt c));
      "-f"; "s" ++ str (8 * bytes_per_sample (fmt c));
      "-r"; str (sample_rate_hz (fmt c))]%string.
Proof. reflexivity. Qed.

(** What a prologue that reaches the loop has done. *)
Lemma prologue_inv (s s1 : state) (l : locals) :
  prologue c s = (Ok l, s1) ->
  exists cmd,
    arecord (Some (fmt c)) "raw" None (device c) = Ok cmd /\
    chunk_size_of c = Ok (chunk_size l) /\
    iterator l = loop_iterator (num_chunks c) /\
    self s1 = mk (_done (self s)) true (Some (List.length (procs (on_host s)))) /\
    on_host s1 =
      set_procs (procs (on_host s) ++
                 [mkProcess cmd None
                    (Some (mkRpipe (capture (on_host s) cmd) false)) false false])
                (on_host s) /\
    observed s1 = observed s ++ when_provided (on_start c) EvOnStart /\
    wave_error s1 = wave_error s /\
    (wav_file l, wav_files s1) =
      match truthy_filename (filename c) with
      | Some name => (Some (List.length (wav_files s)),
                      wav_files s ++ [mkWav name (Some (fmt c)) [] false])
      | None => (None, wav_files s)
      end.
Proof.
  unfold prologue. rewrite record_command.
  unfold bindM, lift, ret, raise, modify, in_host, Popen, wave_open, wave_set_format,
    call_back, call.
  destruct (chunk_size_of c) as [cs | e]; [| discriminate].
  destruct s as [r h ws we obs]. simpl.
  destruct (truthy_filename (filename c)) as [name |]; simpl;
    [destruct we as [e |]; simpl; [discriminate |];
     destruct (num_channels (fmt c) <? 1); [discriminate |];
     destruct ((bytes_per_sample (fmt c) <? 1) || (4 <? bytes_per_sample (fmt c)));
       [discriminate |];
     destruct (sample_rate_hz (fmt c) <=? 0); [discriminate |]; simpl |];
    (destruct (popen_error h) as [e |]; simpl; [discriminate |]);
    (destruct (on_start c) as [f |]; simpl;
     [destruct (cb_raises f) as [e |]; [discriminate |] |]);
    intros H; injection H as <- <-; simpl;
    eexists; repeat split; rewrite ?app_nil_r, ?update_nth_snoc; reflexivity.
Qed.

(** What the [finally] block does on a recorder whose process has its
    output pipe. *)
Lemma cleanup_effects (l : locals) (s : state) (p : nat) (pr : process) (o : rpipe) :
  _process (self s) = Some p ->
  get_proc p (on_host s) = Some pr ->
  proc_stdout pr = Some o ->
  let s' := snd (cleanup c l s) in
  self s' = self s /\
  on_host s' = update_proc p (set_stdout (mkRpipe (pending o) true)) (on_host s) /\
  observed s' = observed s ++ when_provided (on_stop c) EvOnStop /\
  wave_error s' = wave_error s /\
  (returns_normally (on_stop c) ->
   fst (cleanup c l s) = Ok tt /\
   wav_files s' =
     match wav_file l with
     | Some w => update_nth w (fun f => mkWav (wav_name f) (wav_format f)
                                          (wav_frames f) true) (wav_files s)
     | None => wav_files s
     end).
Proof.
  intros Hp Hpr Ho.
  unfold cleanup, bindM, the_process, in_host, stdout_close, call_back, call,
    wave_close, modify, ret, returns_normally.
  rewrite Hp, Hpr, Ho. simpl.
  destruct (on_stop c) as [f |]; simpl.
  - destruct (cb_raises f) as [e |] eqn:Hf; simpl.
    + repeat split. all: try (specialize (H f eq_refl); congruence).
    + destruct (wav_file l); simpl; repeat split.
  - rewrite app_nil_r. destruct (wav_file l); simpl; repeat split.
Qed.

End RecorderEnds.

Section RecorderSticky.

Import Recorder.

Lemma leave_snd (c : config) (l : locals) (pending_exn : option exn) (s : state) :
  snd (leave c l pending_exn s) = snd (cleanup c l s).
Proof.
  unfold leave. destruct (cleanup c l s) as [[u | e] s']; reflexivity.
Qed.

Lemma loop_head_done_eq (c : config) (l : locals) (s : state) :
  _done (self s) = true ->
  exists l', wav_file l' = wav_file l /\ loop_head c l s = leave c l' None s.
Proof.
  intros Hd. unfold loop_head. rewrite Hd.
  destruct (iterator l) as [[| k] |]; eexists; split; reflexivity.
Qed.

Lemma session_done (runs : list (config * list action)) (s : state) :
  _done (self s) = true ->
  _done (self (session runs s)) = true /\
  chunks_of (observed (session runs s)) = chunks_of (observed s).
Proof.
  revert s. induction runs as [| [c acts] runs IH]; intros s Hd.
  - split; [assumption | reflexivity].
  - unfold session in *. simpl.
    destruct (exec_done_idle c acts (record s) Hd) as [Hd' Hy].
    { intros l. discriminate. }
    destruct (IH _ Hd') as [Hd'' Hy'].
    split; [assumption |]. rewrite Hy'. exact Hy.
Qed.

End RecorderSticky.

(** C3: [done()] is idempotent; as a step it changes nothing but the flag
    (the host with its processes and pipes, the [_process] attribute and the
    position of the generator stay as they are); and from the moment [done()]
    has been called, whatever the consumer and the other threads do next, the
    generator yields no further chunk, except the one of a read that was
    already in flight, the flag being tested before each read. *)
Theorem done_stops_the_chunks (c : Recorder.config) :
  (forall s, Recorder.done (Recorder.done s) = Recorder.done s) /\
  (forall pc s,
     Recorder.step c Recorder.ADone (pc, s) = (pc, Recorder.done s) /\
     Recorder.on_host (Recorder.done s) = Recorder.on_host s /\
     Recorder._process (Recorder.self (Recorder.done s)) =
       Recorder._process (Recorder.self s) /\
     Recorder._done (Recorder.self (Recorder.done s)) = true) /\
  (forall m acts,
     exists extra,
       Recorder.yielded (Recorder.exec c acts (Recorder.step c Recorder.ADone m)) =
         Recorder.yielded m ++ extra /\
       (List.length extra <= 1)%nat /\
       (not_reading m -> extra = [])).
Proof.
  split; [| split].
  - intros s. reflexivity.
  - intros pc s. repeat split.
  - intros [pc s] acts.
    destruct (exec_done c acts (Recorder.step c Recorder.ADone (pc, s)) eq_refl)
      as [_ [extra [Hy [Hlen Hnil]]]].
    exists extra. repeat split.
    + exact Hy.
    + exact Hlen.
    + intros Hnr. apply Hnil. intros l. apply (Hnr l).
Qed.

(** C10: nothing clears the done flag.  On a recorder whose flag is set,
    any sequence of [record] calls, each driven in any way, leaves the flag
    set and yields no chunk; and the first [next()] of such a call, when the
    prologue succeeds, spawns the capture process, sets [_process], signals
    started, invokes [on_start] and [on_stop] where provided, closes the pipe
    and finishes the generator. *)
Theorem done_is_sticky (c : Recorder.config) (s : Recorder.state) :
  Recorder._done (Recorder.self s) = true ->
  (forall runs,
     Recorder._done (Recorder.self (Recorder.session runs s)) = true /\
     Recorder.chunks_of (Recorder.observed (Recorder.session runs s)) =
       Recorder.chunks_of (Recorder.observed s)) /\
  (forall acts,
     Recorder.yielded (Recorder.exec c acts (Recorder.record s)) =
       Recorder.yielded (Recorder.record s) /\
     Recorder._done (Recorder.self (snd (Recorder.exec c acts (Recorder.record s)))) = true) /\
  (forall l s1, Recorder.prologue c s = (Ok l, s1) ->
     let m := Recorder.step c Recorder.ANext (Recorder.record s) in
     let p := List.length (procs (Recorder.on_host s)) in
     exists r cmd,
       fst m = Recorder.Finished r /\
       arecord (Some (Recorder.fmt c)) "raw" None (Recorder.device c) = Ok cmd /\
       get_proc p (Recorder.on_host (snd m)) =
         Some (mkProcess cmd None
                 (Some (mkRpipe (capture (Recorder.on_host s) cmd) true)) false false) /\
       Recorder.self (snd m) = Recorder.mk true true (Some p) /\
       Recorder.observed (snd m) =
         Recorder.observed s ++ when_provided (Recorder.on_start c) Recorder.EvOnStart
                             ++ when_provided (Recorder.on_stop c) Recorder.EvOnStop).
Proof.
  intros Hd. split; [| split].
  - intros runs. apply session_done. assumption.
  - intros acts.
    destruct (exec_done_idle c acts (Recorder.record s) Hd) as [Hd' Hy].
    { intros l. discriminate. }
    split; assumption.
  - intros l s1 Hpro. simpl. rewrite Hpro.
    destruct (prologue_inv c s s1 l Hpro)
      as [cmd [Hcmd [_ [_ [Hself [Hhost [Hobs _]]]]]]].
    assert (Hd1 : Recorder._done (Recorder.self s1) = true).
    { rewrite Hself. simpl. assumption. }
    destruct (loop_head_done_eq c l s1 Hd1) as [l' [_ ->]].
    destruct (leave_finished c l' None s1) as [r Hr].
    exists r, cmd. rewrite leave_snd.
    assert (Hget : get_proc (List.length (procs (Recorder.on_host s)))
                     (Recorder.on_host s1) =
                   Some (mkProcess cmd None
                           (Some (mkRpipe (capture (Recorder.on_host s) cmd) false))
                           false false)).
    { rewrite Hhost. unfold get_proc. simpl. apply nth_error_snoc. }
    destruct (cleanup_effects c l' s1 _ _ _
                ltac:(rewrite Hself; reflexivity) Hget eq_refl)
      as [Hself' [Hhost' [Hobs' _]]].
    repeat split.
    + exact Hr.
    + exact Hcmd.
    + rewrite Hhost', get_proc_update_eq, Hget. reflexivity.
    + rewrite Hself', Hself, Hd. reflexivity.
    + rewrite Hobs', Hobs, app_assoc. reflexivity.
Qed.

(** ** Recorder: the [finally] block runs on every way out of the loop *)

Section RecorderCleanup.

Import Recorder.

Variable c : config.
Variable p : nat.
Variable wav : option nat.
Variable name : string.
Variable stops : nat.

Lemma count_event_app (ev : event) (evs evs' : list event) :
  count_event ev (evs ++ evs') = (count_event ev evs + count_event ev evs')%nat.
Proof.
  unfold count_event. rewrite filter_app, length_app. reflexivity.
Qed.

Lemma count_on_stop_provided :
  count_event EvOnStop (when_provided (on_stop c) EvOnStop) =
  List.length (when_provided (on_stop c) EvOnStop).
Proof. destruct (on_stop c); reflexivity. Qed.

Lemma leave_cleans (l : locals) (pending_exn : option exn) (s : state) :
  wav_file l = wav -> holds p wav name stops s ->
  run_inv c p wav name stops (leave c l pending_exn s).
Proof.
  intros Hl [Hp [[pr [o [Hpr Ho]]] [Hw Hn]]].
  destruct (leave_finished c l pending_exn s) as [r Hr].
  unfold run_inv. rewrite Hr, leave_snd.
  destruct (cleanup_effects c l s p pr o Hp Hpr Ho)
    as [_ [Hhost [Hobs [_ Hwav]]]].
  split; [| split].
  - exists (set_stdout (mkRpipe (pending o) true) pr), (mkRpipe (pending o) true).
    rewrite Hhost, get_proc_update_eq, Hpr. repeat split.
  - rewrite Hobs, count_event_app, count_on_stop_provided, Hn. reflexivity.
  - intros on_stop_returns w Hw'. destruct (Hw w Hw') as [f [Hf Hname]].
    destruct (Hwav on_stop_returns) as [_ Hfiles].
    rewrite Hfiles, Hl, Hw', nth_error_update_nth_eq, Hf. simpl.
    eexists. repeat split. assumption.
Qed.

Lemma holds_done (s : state) :
  holds p wav name stops s -> holds p wav name stops (done s).
Proof. intros H. exact H. Qed.

Lemma holds_read (n : Z) (s : state) :
  holds p wav name stops s ->
  holds p wav name stops
    (snd ((process <~ the_process ;; in_host (stdout_read process n)) s)).
Proof.
  intros [Hp [[pr [o [Hpr Ho]]] [Hw Hn]]].
  unfold bindM, the_process, in_host, stdout_read. rewrite Hp, Hpr, Ho.
  destruct (pipe_read n o) as [[data o'] | e]; simpl.
  - repeat split; try assumption.
    exists (set_stdout o' pr), o'. cbn [on_host].
    rewrite get_proc_update_eq, Hpr. split; reflexivity.
  - repeat split; try assumption. exists pr, o. split; assumption.
Qed.

Lemma holds_writeframes (w : nat) (data : bytes) (fault : option exn) (s : state) :
  holds p wav name stops s ->
  holds p wav name stops (snd (writeframes w data fault s)).
Proof.
  intros [Hp [Hpipe [Hw Hn]]]. unfold writeframes.
  destruct fault as [e |]; simpl; repeat split; try assumption.
  intros w' Hw'. destruct (Hw w' Hw') as [f [Hf Hname]]. simpl.
  destruct (Nat.eq_dec w w') as [-> | Hne].
  - rewrite nth_error_update_nth_eq, Hf. simpl. eexists. split; [reflexivity | assumption].
  - rewrite nth_error_update_nth_neq by assumption. eauto.
Qed.

Lemma holds_yield (data : bytes) (s : state) :
  holds p wav name stops s -> holds p wav name stops (emit (EvYield data) s).
Proof.
  intros [Hp [Hpipe [Hw Hn]]]. repeat split; try assumption.
  cbn [observed emit]. rewrite count_event_app, Hn. apply Nat.add_0_r.
Qed.

Lemma loop_head_inv (l : locals) (s : state) :
  wav_file l = wav -> holds p wav name stops s ->
  run_inv c p wav name stops (loop_head c l s).
Proof.
  intros Hl Hs. unfold loop_head.
  destruct (iterator l) as [[| k] |]; try (apply leave_cleans; assumption);
    (destruct (_done (self s)); [apply leave_cleans; assumption |]);
    split; assumption.
Qed.

Lemma loop_body_inv (l : locals) (o : io_outcome) (s : state) :
  wav_file l = wav -> holds p wav name stops s ->
  run_inv c p wav name stops (loop_body c l o s).
Proof.
  intros Hl Hs. unfold loop_body.
  pose proof (holds_read (chunk_size l) s Hs) as Hread.
  destruct o as [| e | e]; try (apply leave_cleans; assumption);
    destruct ((process <~ the_process ;;
               in_host (stdout_read process (chunk_size l))) s)
      as [[[| b data] | e'] s'];
    simpl in Hread; try (apply leave_cleans; assumption);
    destruct (wav_file l) as [w |] eqn:Hwl.
  - split; [congruence |]. cbn [snd].
    apply holds_yield. apply (holds_writeframes w (b :: data) None s' Hread).
  - split; [congruence |]. apply holds_yield. assumption.
  - apply leave_cleans; [congruence |].
    apply (holds_writeframes w (b :: data) (Some e) s' Hread).
  - split; [congruence |]. apply holds_yield. assumption.
Qed.

Lemma step_inv (a : action) (m : machine) :
  run_inv c p wav name stops m -> run_inv c p wav name stops (step c a m).
Proof.
  destruct m as [pc s]. unfold run_inv at 1. simpl.
  destruct a as [| e | o |]; destruct pc as [| l | l | r]; simpl;
    try contradiction; try (intros [Hl Hs]); try (intros Hs);
    try (apply loop_head_inv; assumption);
    try (apply leave_cleans; assumption);
    try (apply loop_body_inv; assumption);
    try (split; assumption); try exact Hs.
Qed.

Lemma exec_inv (acts : list action) (m : machine) :
  run_inv c p wav name stops m -> run_inv c p wav name stops (exec c acts m).
Proof.
  revert m. induction acts as [| a acts IH]; intros m Hm; simpl.
  - assumption.
  - apply IH. apply step_inv. assumption.
Qed.

End RecorderCleanup.

Lemma count_no_on_stop (cb : option callback) (evs : list Recorder.event) :
  Recorder.count_event Recorder.EvOnStop (evs ++ when_provided cb Recorder.EvOnStart) =
  Recorder.count_event Recorder.EvOnStop evs.
Proof.
  rewrite count_event_app. destruct cb; simpl; apply Nat.add_0_r.
Qed.

(** A prologue that reaches the loop establishes the invariant. *)
Lemma prologue_holds (c : Recorder.config) (s0 s1 : Recorder.state) (l : Recorder.locals) :
  Recorder.prologue c s0 = (Ok l, s1) ->
  exists name,
    (forall n, Recorder.truthy_filename (Recorder.filename c) = Some n ->
       n = name /\ Recorder.wav_file l = Some (List.length (Recorder.wav_files s0))) /\
    holds (List.length (procs (Recorder.on_host s0))) (Recorder.wav_file l) name
      (Recorder.count_event Recorder.EvOnStop (Recorder.observed s0)) s1.
Proof.
  intros Hpro.
  destruct (prologue_inv c s0 s1 l Hpro)
    as [cmd [_ [_ [_ [Hself [Hhost [Hobs [_ Hwav]]]]]]]].
  assert (Hrest : forall name,
    (forall w, Recorder.wav_file l = Some w ->
       exists f, nth_error (Recorder.wav_files s1) w = Some f /\ wav_name f = name) ->
    holds (List.length (procs (Recorder.on_host s0))) (Recorder.wav_file l) name
      (Recorder.count_event Recorder.EvOnStop (Recorder.observed s0)) s1).
  { intros name Hw. repeat split.
    - rewrite Hself. reflexivity.
    - rewrite Hhost. unfold get_proc. simpl. rewrite nth_error_snoc.
      eexists. eexists. split; reflexivity.
    - exact Hw.
    - rewrite Hobs. apply count_no_on_stop. }
  destruct (Recorder.truthy_filename (Recorder.filename c)) as [name |].
  - injection Hwav as Hl Hfiles. exists name. split.
    + intros n Hn. injection Hn as <-. split; [reflexivity | assumption].
    + apply Hrest. intros w Hw. rewrite Hl in Hw. injection Hw as <-.
      rewrite Hfiles, nth_error_snoc. eexists. split; reflexivity.
  - injection Hwav as Hl Hfiles. exists EmptyString. split.
    + intros n Hn. discriminate Hn.
    + apply Hrest. intros w Hw. rewrite Hl in Hw. discriminate Hw.
Qed.

(** C2, as the code has it: take a call of [record] whose first [next()]
    reaches the loop, no other call of [record] on the same recorder being
    started before this one has finished.  Whatever the consumer does and
    whenever [done()] is called, once the generator has finished (by
    exhausting [num_chunks], by the done flag, by an empty read, or by an
    exception raised in the loop body or thrown in at the [yield]) the output
    pipe of the process spawned for this call is closed, [on_stop] has been
    invoked exactly once more if it is provided, and, [on_stop] returning
    when it is called, the wave file opened for this call, if any, is closed.
    The [finally] block is a plain sequence: an [on_stop] that raises leaves
    it before [wav_file.close()]. *)
Theorem cleanup_on_every_exit (c : Recorder.config) (s0 s1 : Recorder.state)
    (l : Recorder.locals) (acts : list Recorder.action) (r : option exn) :
  Recorder.prologue c s0 = (Ok l, s1) ->
  fst (Recorder.exec c (Recorder.ANext :: acts) (Recorder.record s0)) = Recorder.Finished r ->
  let s' := snd (Recorder.exec c (Recorder.ANext :: acts) (Recorder.record s0)) in
  (exists pr o,
     get_proc (List.length (procs (Recorder.on_host s0))) (Recorder.on_host s') = Some pr /\
     proc_stdout pr = Some o /\ rclosed o = true) /\
  Recorder.count_event Recorder.EvOnStop (Recorder.observed s') =
    (Recorder.count_event Recorder.EvOnStop (Recorder.observed s0) +
     List.length (when_provided (Recorder.on_stop c) Recorder.EvOnStop))%nat /\
  (returns_normally (Recorder.on_stop c) ->
   forall name, Recorder.truthy_filename (Recorder.filename c) = Some name ->
     exists f,
       nth_error (Recorder.wav_files s') (List.length (Recorder.wav_files s0)) = Some f /\
       wav_name f = name /\ wav_closed f = true).
Proof.
  intros Hpro Hfin s'.
  destruct (prologue_holds c s0 s1 l Hpro) as [name [Hname Hholds]].
  assert (Hinv : run_inv c (List.length (procs (Recorder.on_host s0)))
                   (Recorder.wav_file l) name
                   (Recorder.count_event Recorder.EvOnStop (Recorder.observed s0))
                   (Recorder.exec c (Recorder.ANext :: acts) (Recorder.record s0))).
  { change (Recorder.exec c (Recorder.ANext :: acts) (Recorder.record s0))
      with (Recorder.exec c acts (Recorder.step c Recorder.ANext (Recorder.record s0))).
    apply exec_inv.
    simpl. rewrite Hpro. apply loop_head_inv; [reflexivity | assumption]. }
  unfold run_inv in Hinv. rewrite Hfin in Hinv.
  destruct Hinv as [Hpipe [Hcount Hwav]].
  split; [exact Hpipe | split; [exact Hcount |]].
  intros Hstop n Hn. destruct (Hname n Hn) as [-> Hl]. apply Hwav; assumption.
Qed.

(** ** Chunks of a stream *)

Section Chunks.

Variable size : nat.
Hypothesis size_pos : (0 < size)%nat.

Lemma firstn_empty_iff (data : bytes) : firstn size data = [] <-> data = [].
Proof.
  split; [| intros ->; apply firstn_nil].
  destruct size as [| n]; [lia |]. destruct data; [reflexivity | discriminate].
Qed.

Lemma chunks_until_end_nil : chunks_until_stream_end size [] = 0%nat.
Proof.
  unfold chunks_until_stream_end. simpl. apply Nat.div_small. lia.
Qed.

Lemma chunks_until_end_step (data : bytes) :
  data <> [] ->
  chunks_until_stream_end size data = S (chunks_until_stream_end size (skipn size data)).
Proof.
  intros Hne. unfold chunks_until_stream_end. rewrite length_skipn.
  assert (Hlen : (0 < List.length data)%nat).
  { destruct data; [contradiction | simpl; lia]. }
  destruct (Nat.le_gt_cases (List.length data) size) as [Hle | Hgt].
  - replace (List.length data - size)%nat with 0%nat by lia.
    rewrite (Nat.div_small (0 + size - 1) size) by lia.
    symmetry. apply (Nat.div_unique _ _ 1%nat (List.length data - 1)%nat); lia.
  - replace (List.length data + size - 1)%nat
      with ((List.length data - size + size - 1) + 1 * size)%nat by lia.
    rewrite Nat.div_add by lia. lia.
Qed.

Lemma take_chunks_length (k : nat) (data : bytes) :
  List.length (take_chunks k size data) =
  Nat.min k (chunks_until_stream_end size data).
Proof.
  revert data. induction k as [| k IH]; intros data; [reflexivity |].
  simpl. destruct (firstn size data) as [| b chunk] eqn:Hf.
  - apply (proj1 (firstn_empty_iff data)) in Hf. subst data.
    rewrite chunks_until_end_nil. reflexivity.
  - assert (Hne : data <> []).
    { intros ->. rewrite firstn_nil in Hf. discriminate Hf. }
    rewrite (chunks_until_end_step data Hne). simpl. rewrite IH. reflexivity.
Qed.

Lemma firstn_add {A : Type} (a b : nat) (l : list A) :
  firstn (a + b) l = firstn a l ++ firstn b (skipn a l).
Proof.
  revert l. induction a as [| a IH]; intros l; [reflexivity |].
  destruct l as [| x l]; simpl.
  - rewrite firstn_nil. reflexivity.
  - rewrite IH. reflexivity.
Qed.

Lemma take_chunks_concat (k : nat) (data : bytes) :
  List.concat (take_chunks k size data) = firstn (k * size) data.
Proof.
  revert data. induction k as [| k IH]; intros data; [reflexivity |].
  change (S k * size)%nat with (size + k * size)%nat.
  rewrite firstn_add. cbn [take_chunks].
  destruct (firstn size data) as [| b chunk] eqn:Hf.
  - apply (proj1 (firstn_empty_iff data)) in Hf. subst data.
    rewrite skipn_nil, firstn_nil. reflexivity.
  - cbn [List.concat]. rewrite IH. reflexivity.
Qed.

(** Every chunk is non-empty and at most [size] long, and exactly [size]
    long unless it is the last one. *)
Lemma take_chunks_sizes (k : nat) (data : bytes) (i : nat) (chunk : bytes) :
  nth_error (take_chunks k size data) i = Some chunk ->
  (0 < List.length chunk <= size)%nat /\
  (S i < List.length (take_chunks k size data) -> List.length chunk = size)%nat.
Proof.
  revert data i. induction k as [| k IH]; intros data i.
  - destruct i; discriminate.
  - simpl. destruct (firstn size data) as [| b ch] eqn:Hf.
    + destruct i; discriminate.
    + destruct i as [| i]; simpl.
      * intros H. injection H as <-. rewrite <- Hf. split.
        -- rewrite Hf at 1. rewrite length_firstn. simpl. lia.
        -- intros Hmore.
           destruct (take_chunks k size (skipn size data)) as [| ch' rest] eqn:Ht;
             [simpl in Hmore; lia |].
           assert (Hrest : skipn size data <> []).
           { intros Hnil. rewrite Hnil in Ht. destruct k; simpl in Ht;
               [discriminate |].
             rewrite firstn_nil in Ht. discriminate. }
           rewrite length_firstn. apply Nat.min_l.
           destruct (Nat.le_gt_cases size (List.length data)); [assumption |].
           contradiction Hrest. apply skipn_all2. lia.
      * intros H. destruct (IH _ _ H) as [Hb Hfull]. split; [assumption |].
        intros Hmore. apply Hfull. lia.
Qed.

End Chunks.

(** ** Recorder: a consumer that takes every chunk *)

Section RecorderDrain.

Import Recorder.

Variable c : config.
Variable p : nat.

Lemma drain_finished (fuel : nat) (m : machine) (r : option exn) :
  fst m = Finished r -> drain c fuel m = m.
Proof. intros H. destruct fuel; simpl; [| rewrite H]; reflexivity. Qed.

(** One turn of the loop on a ready recorder: an empty read ends the
    generator, any other read is yielded as the next chunk. *)
Lemma drain_turn (l : locals) (s : state) (data : bytes) :
  ready p data s -> 0 < chunk_size l ->
  let size := Z.to_nat (chunk_size l) in
  (firstn size data = [] /\
   (exists r, fst (loop_body c l IoOk s) = Finished r) /\
   yielded (loop_body c l IoOk s) = chunks_of (observed s)) \/
  (firstn size data <> [] /\
   exists s', loop_body c l IoOk s = (Suspended l, s') /\
              ready p (skipn size data) s' /\
              chunks_of (observed s') = chunks_of (observed s) ++ [firstn size data]).
Proof.
  intros [Hd [Hp [pr [Hpr Ho]]]] Hcs size.
  assert (Hread : (process <~ the_process ;;
                   in_host (stdout_read process (chunk_size l))) s =
                  (Ok (firstn size data),
                   mkState (self s)
                     (update_proc p (set_stdout (mkRpipe (skipn size data) false))
                        (on_host s))
                     (wav_files s) (wave_error s) (observed s))).
  { unfold bindM, the_process, in_host, stdout_read, pipe_read.
    rewrite Hp, Hpr, Ho. simpl.
    destruct (chunk_size l <? -1) eqn:Hlow; [apply Z.ltb_lt in Hlow; lia |].
    destruct (chunk_size l <? 0) eqn:Hneg; [apply Z.ltb_lt in Hneg; lia |].
    reflexivity. }
  unfold loop_body. rewrite Hread.
  destruct (firstn size data) as [| b chunk] eqn:Hf.
  - left. split; [reflexivity |]. split; [apply leave_finished |].
    unfold yielded. pose proof (leave_stable c l None
      (mkState (self s)
         (update_proc p (set_stdout (mkRpipe (skipn size data) false)) (on_host s))
         (wav_files s) (wave_error s) (observed s))) as Hst.
    unfold stable in Hst. injection Hst as _ Hy. exact Hy.
  - right. split; [discriminate |].
    assert (Hready : forall ws obs,
              ready p (skipn size data)
                (mkState (self s)
                   (update_proc p (set_stdout (mkRpipe (skipn size data) false))
                      (on_host s)) ws (wave_error s) obs)).
    { intros ws obs. repeat split; try assumption.
      exists (set_stdout (mkRpipe (skipn size data) false) pr).
      cbn [on_host]. rewrite get_proc_update_eq, Hpr. split; reflexivity. }
    destruct (wav_file l) as [w |]; simpl; eexists;
      (split; [reflexivity | split; [apply Hready |]]);
      unfold emit, set_wav_files; cbn [observed]; rewrite chunks_of_app; reflexivity.
Qed.

Lemma loop_head_ready (l : locals) (s : state) (data : bytes) (it : option nat) :
  ready p data s -> iterator l <> Some O ->
  loop_head c l s =
  (Reading (mkLocals (chunk_size l) (wav_file l) (option_map Nat.pred (iterator l))), s).
Proof.
  intros [Hd _] Hit. unfold loop_head. rewrite Hd.
  destruct (iterator l) as [[| k] |]; [contradiction | reflexivity | reflexivity].
Qed.

(** A bounded loop: at most [k] chunks. *)
Lemma drain_bounded (k : nat) :
  forall (fuel : nat) (l : locals) (s : state) (data : bytes),
  ready p data s -> 0 < chunk_size l -> iterator l = Some k ->
  (2 * k <= fuel)%nat ->
  (exists r, fst (drain c fuel (loop_head c l s)) = Finished r) /\
  yielded (drain c fuel (loop_head c l s)) =
    chunks_of (observed s) ++ take_chunks k (Z.to_nat (chunk_size l)) data.
Proof.
  induction k as [| k IH]; intros fuel l s data Hready Hcs Hit Hfuel.
  - unfold loop_head. rewrite Hit.
    destruct (leave_finished c l None s) as [r Hr].
    rewrite (drain_finished fuel _ r Hr). split; [eauto |].
    pose proof (leave_stable c l None s) as Hst. unfold stable in Hst.
    injection Hst as _ Hy. unfold yielded. rewrite Hy, app_nil_r. reflexivity.
  - rewrite (loop_head_ready l s data (iterator l) Hready) by (rewrite Hit; discriminate).
    rewrite Hit. cbn [option_map Nat.pred].
    set (l' := mkLocals (chunk_size l) (wav_file l) (Some k)).
    destruct fuel as [| [| fuel]]; try lia.
    change (drain c (S (S fuel)) (Reading l', s))
      with (drain c (S fuel) (loop_body c l' IoOk s)).
    destruct (drain_turn l' s data Hready Hcs)
      as [[Hf [[r Hr] Hy]] | [Hf [s' [Hbody [Hready' Hy]]]]].
    + rewrite (drain_finished _ _ r Hr). split; [eauto |].
      rewrite Hy. cbn [take_chunks]. cbn [chunk_size l'] in Hf. rewrite Hf.
      rewrite app_nil_r. reflexivity.
    + rewrite Hbody.
      change (drain c (S fuel) (Suspended l', s'))
        with (drain c fuel (loop_head c l' s')).
      destruct (IH fuel l' s' _ Hready' Hcs eq_refl ltac:(lia)) as [Hfin Hy'].
      split; [exact Hfin |]. rewrite Hy', Hy. cbn [take_chunks].
      cbn [chunk_size l'] in Hf |- *.
      destruct (firstn (Z.to_nat (chunk_size l)) data) as [| b chunk];
        [contradiction |].
      rewrite <- app_assoc. reflexivity.
Qed.

(** An unbounded loop: as many chunks as the stream holds. *)
Lemma drain_unbounded (n : nat) :
  forall (fuel : nat) (l : locals) (s : state) (data : bytes),
  ready p data s -> 0 < chunk_size l -> iterator l = None ->
  (List.length data <= n)%nat -> (2 * n + 1 <= fuel)%nat ->
  (exists r, fst (drain c fuel (loop_head c l s)) = Finished r) /\
  yielded (drain c fuel (loop_head c l s)) =
    chunks_of (observed s) ++ take_chunks n (Z.to_nat (chunk_size l)) data.
Proof.
  induction n as [| n IH]; intros fuel l s data Hready Hcs Hit Hlen Hfuel;
    rewrite (loop_head_ready l s data (iterator l) Hready)
      by (rewrite Hit; discriminate);
    rewrite Hit; cbn [option_map];
    set (l' := mkLocals (chunk_size l) (wav_file l) None);
    (destruct fuel as [| fuel]; [lia |]);
    change (drain c (S fuel) (Reading l', s))
      with (drain c fuel (loop_body c l' IoOk s));
    destruct (drain_turn l' s data Hready Hcs)
      as [[Hf [[r Hr] Hy]] | [Hf [s' [Hbody [Hready' Hy]]]]].
  - rewrite (drain_finished _ _ r Hr). split; [eauto |].
    rewrite Hy, app_nil_r. reflexivity.
  - destruct data; [| simpl in Hlen; lia].
    rewrite firstn_nil in Hf. contradiction.
  - rewrite (drain_finished _ _ r Hr). split; [eauto |].
    rewrite Hy. cbn [take_chunks]. cbn [chunk_size l'] in Hf. rewrite Hf.
    rewrite app_nil_r. reflexivity.
  - rewrite Hbody. destruct fuel as [| fuel]; [lia |].
    change (drain c (S fuel) (Suspended l', s'))
      with (drain c fuel (loop_head c l' s')).
    cbn [chunk_size l'] in Hf, Hready'.
    assert (Hlen' : (List.length (skipn (Z.to_nat (chunk_size l)) data) <= n)%nat).
    { rewrite length_skipn.
      destruct data as [| b0 data]; [rewrite firstn_nil in Hf; contradiction |].
      cbn [List.length] in Hlen |- *. lia. }
    destruct (IH fuel l' s' _ Hready' Hcs eq_refl Hlen' ltac:(lia)) as [Hfin Hy'].
    split; [exact Hfin |]. rewrite Hy', Hy. cbn [take_chunks].
    cbn [chunk_size l'].
    destruct (firstn (Z.to_nat (chunk_size l)) data) as [| b chunk];
      [contradiction |].
    rewrite <- app_assoc. reflexivity.
Qed.

End RecorderDrain.

Lemma chunks_until_end_le (size : nat) (data : bytes) :
  (0 < size)%nat -> (chunks_until_stream_end size data <= List.length data)%nat.
Proof.
  intros Hs. unfold chunks_until_stream_end.
  destruct data as [| b data]; [simpl; rewrite Nat.div_small; lia |].
  apply Nat.lt_succ_r. apply Nat.Div0.div_lt_upper_bound.
  cbn [List.length]. nia.
Qed.

(** C1, as the code behaves.  Take a call of [record] whose first [next()]
    reaches the loop, on a recorder whose done flag stays clear, with
    [chunk_size = int(chunk_duration_sec * fmt.bytes_per_second)] positive,
    and a consumer that takes every chunk.  The generator finishes, and the
    chunks it yields are consecutive slices of the captured stream, each
    [chunk_size] long except that the last may be shorter, never empty.
    With a positive [num_chunks = N] there are exactly
    [min(N, chunks-until-stream-end)] of them; with [num_chunks] absent, and
    equally with [num_chunks = 0], the loop is unbounded and there are as many
    as the stream holds. *)
Theorem record_yields_chunks (c : Recorder.config) (s0 s1 : Recorder.state)
    (l : Recorder.locals) :
  Recorder.prologue c s0 = (Ok l, s1) ->
  Recorder._done (Recorder.self s0) = false ->
  0 < Recorder.chunk_size l ->
  exists cmd,
    arecord (Some (Recorder.fmt c)) "raw" None (Recorder.device c) = Ok cmd /\
    Recorder.chunk_size_of c = Ok (Recorder.chunk_size l) /\
    let size := Z.to_nat (Recorder.chunk_size l) in
    let data := capture (Recorder.on_host s0) cmd in
    let limit := match Recorder.loop_iterator (Recorder.num_chunks c) with
                 | Some k => k
                 | None => List.length data
                 end in
    forall fuel, (2 * limit + 2 <= fuel)%nat ->
    let m := Recorder.drain c fuel (Recorder.record s0) in
    (exists r, fst m = Recorder.Finished r) /\
    exists chunks,
      Recorder.yielded m = Recorder.yielded (Recorder.record s0) ++ chunks /\
      List.concat chunks = firstn (limit * size) data /\
      (forall i chunk, nth_error chunks i = Some chunk ->
         (0 < List.length chunk <= size)%nat /\
         (S i < List.length chunks -> List.length chunk = size)%nat) /\
      (forall N, Recorder.num_chunks c = Some N -> 0 < N ->
         List.length chunks = Nat.min (Z.to_nat N) (chunks_until_stream_end size data)) /\
      (Recorder.num_chunks c = None \/ Recorder.num_chunks c = Some 0 ->
         List.length chunks = chunks_until_stream_end size data).
Proof.
  intros Hpro Hd Hcs.
  destruct (prologue_inv c s0 s1 l Hpro)
    as [cmd [Hcmd [Hsize [Hit [Hself [Hhost [Hobs _]]]]]]].
  exists cmd. split; [exact Hcmd | split; [exact Hsize |]].
  intros size data limit fuel Hfuel m.
  assert (Hpos : (0 < size)%nat) by (unfold size; lia).
  set (p := List.length (procs (Recorder.on_host s0))).
  assert (Hready : ready p data s1).
  { repeat split.
    - rewrite Hself. exact Hd.
    - rewrite Hself. reflexivity.
    - rewrite Hhost. unfold get_proc, p. cbn [procs set_procs].
      rewrite nth_error_snoc. eexists. split; reflexivity. }
  assert (Hy1 : Recorder.chunks_of (Recorder.observed s1) =
                Recorder.chunks_of (Recorder.observed s0)).
  { pose proof (keeps_prologue c s0) as Hk. rewrite Hpro in Hk.
    unfold stable in Hk. injection Hk as _ Hk. exact Hk. }
  assert (Hrun : (exists r, fst m = Recorder.Finished r) /\
                 Recorder.yielded m =
                   Recorder.yielded (Recorder.record s0) ++ take_chunks limit size data).
  { unfold m. destruct fuel as [| fuel]; [lia |].
    change (Recorder.drain c (S fuel) (Recorder.record s0))
      with (Recorder.drain c fuel (Recorder.step c Recorder.ANext (Recorder.record s0))).
    unfold Recorder.record, Recorder.step. rewrite Hpro.
    unfold Recorder.yielded at 2. cbn [snd]. rewrite <- Hy1.
    unfold limit. rewrite <- Hit.
    destruct (Recorder.iterator l) as [k |] eqn:Hk.
    - apply (drain_bounded c p k fuel l s1 data Hready Hcs Hk).
      unfold limit in Hfuel. rewrite <- Hit in Hfuel. lia.
    - apply (drain_unbounded c p (List.length data) fuel l s1 data Hready Hcs Hk).
      + apply Nat.le_refl.
      + unfold limit in Hfuel. rewrite <- Hit in Hfuel. lia. }
  destruct Hrun as [Hfin Hy]. split; [exact Hfin |].
  exists (take_chunks limit size data).
  split; [exact Hy | split; [apply take_chunks_concat; assumption | split; [| split]]].
  - intros i chunk. apply take_chunks_sizes. assumption.
  - intros N HN Hpos'. rewrite take_chunks_length by assumption.
    unfold limit, Recorder.loop_iterator. rewrite HN.
    destruct (N =? 0) eqn:E; [apply Z.eqb_eq in E; lia | reflexivity].
  - intros Hnone. rewrite take_chunks_length by assumption.
    assert (Hlim : limit = List.length data).
    { unfold limit, Recorder.loop_iterator.
      destruct Hnone as [-> | ->]; reflexivity. }
    rewrite Hlim. apply Nat.min_r. apply chunks_until_end_le. assumption.
Qed.

Lemma record_yields_chunks_witness :
  exists chunks,
    Recorder.yielded (Recorder.drain small 6 (Recorder.record small_state)) = chunks /\
    List.length chunks = 2%nat.
Proof.
  destruct (record_yields_chunks small small_state
              (snd (Recorder.prologue small small_state)) small_locals
              eq_refl eq_refl eq_refl)
    as [cmd [_ [_ H]]].
  destruct (H 6%nat ltac:(simpl; lia)) as [_ [chunks [Hy [_ [_ [Hn _]]]]]].
  exists chunks. split.
  - exact Hy.
  - rewrite (Hn 2 eq_refl eq_refl). reflexivity.
Defined.

(** With [num_chunks=0] the loop is the unbounded one: the consumer gets
    every chunk of the stream, not zero chunks. *)
Lemma record_zero_is_unbounded :
  Recorder.num_chunks zero_chunks = Some 0 /\
  Recorder.yielded (Recorder.drain zero_chunks 10 (Recorder.record small_state)) =
    [[x01; x02]; [x03; x04]; [x05]] /\
  ~ (List.length (Recorder.yielded
       (Recorder.drain zero_chunks 10 (Recorder.record small_state))) <= Z.to_nat 0)%nat.
Proof.
  split; [reflexivity | split; [reflexivity |]].
  vm_compute. intros H. inversion H.
Qed.

Lemma cleanup_on_every_exit_witness :
  let s' := snd (Recorder.exec small
                   [Recorder.ANext; Recorder.ARead Recorder.IoOk;
                    Recorder.AThrow GeneratorExit]
                   (Recorder.record small_state)) in
  (exists pr o, get_proc 0 (Recorder.on_host s') = Some pr /\
                proc_stdout pr = Some o /\ rclosed o = true) /\
  Recorder.count_event Recorder.EvOnStop (Recorder.observed s') = 1%nat /\
  (exists f, nth_error (Recorder.wav_files s') 0 = Some f /\
             wav_name f = "out.wav" /\ wav_closed f = true).
Proof.
  destruct (cleanup_on_every_exit small small_state
              (snd (Recorder.prologue small small_state)) small_locals
              [Recorder.ARead Recorder.IoOk; Recorder.AThrow GeneratorExit]
              (Some GeneratorExit) eq_refl eq_refl)
    as [Hpipe [Hcount Hwav]].
  split; [exact Hpipe | split; [exact Hcount |]].
  apply (Hwav ltac:(intros f H; injection H as <-; reflexivity) "out.wav" eq_refl).
Defined.

Lemma done_stops_the_chunks_witness :
  Recorder.yielded
    (Recorder.exec small
       [Recorder.ANext; Recorder.ARead Recorder.IoOk; Recorder.ANext]
       (Recorder.step small Recorder.ADone (Recorder.record small_state))) = [].
Proof.
  destruct (done_stops_the_chunks small) as [_ [_ H]].
  destruct (H (Recorder.record small_state)
              [Recorder.ANext; Recorder.ARead Recorder.IoOk; Recorder.ANext])
    as [extra [Hy [_ Hnil]]].
  rewrite Hy, Hnil; [reflexivity |]. intros l. discriminate.
Defined.

Lemma done_is_sticky_witness :
  Recorder.yielded
    (Recorder.exec small
       [Recorder.ANext; Recorder.ARead Recorder.IoOk; Recorder.ANext]
       (Recorder.record (Recorder.done small_state))) = [] /\
  Recorder.observed
    (snd (Recorder.step small Recorder.ANext (Recorder.record (Recorder.done small_state))))
  = [Recorder.EvOnStart; Recorder.EvOnStop].
Proof.
  destruct (done_is_sticky small (Recorder.done small_state) eq_refl) as [_ [Hy Hfirst]].
  split.
  - exact (proj1 (Hy [Recorder.ANext; Recorder.ARead Recorder.IoOk; Recorder.ANext])).
  - destruct (Hfirst _ _ eq_refl) as [r [cmd [_ [_ [_ [_ Hobs]]]]]]. exact Hobs.
Defined.

(** The scenario of the specification: [chunk_size] is 3200, the consumer
    gets exactly three chunks of 3200 bytes, and the loop exits cleanly,
    closing the pipe and invoking [on_stop] once. *)
Example scenario_three_chunks :
  let m := Recorder.drain scenario 8 (Recorder.record scenario_state) in
  Recorder.chunk_size_of scenario = Ok 3200 /\
  fst m = Recorder.Finished None /\
  map (@List.length byte) (Recorder.yielded m) = [3200; 3200; 3200]%nat /\
  Recorder.observed (snd m) =
    [Recorder.EvYield (repeat x00 3200); Recorder.EvYield (repeat x00 3200);
     Recorder.EvYield (repeat x00 3200); Recorder.EvOnStop] /\
  option_map proc_stdout (get_proc 0 (Recorder.on_host (snd m))) =
    Some (Some (mkRpipe [] true)).
Proof. vm_compute. repeat split. Qed.

(** An [on_stop] that raises leaves the [finally] block before the wave
    file is closed. *)
Example on_stop_raising_skips_close :
  let c := Recorder.mkConfig (mkAudioFormat 2 1 1) (NInt 1) "default" (Some 2)
             None (Some (mkCallback (Some (OSError "on_stop")))) (Some "out.wav") in
  let m := Recorder.drain c 6 (Recorder.record small_state) in
  fst m = Recorder.Finished (Some (OSError "on_stop")) /\
  map wav_closed (Recorder.wav_files (snd m)) = [false].
Proof. vm_compute. split; reflexivity. Qed.

(** Two generators of one recorder.  The first is suspended at its [yield]
    when a second call of [record] spawns its own process and overwrites
    [self._process]; closing the first generator then runs its [finally]
    block on [self._process.stdout], the pipe of the second call: the pipe of
    the first process stays open and the second generator, still suspended,
    has lost its pipe. *)
Example second_record_takes_over_the_pipe :
  let c := Recorder.mkConfig (mkAudioFormat 2 1 1) (NInt 1) "default" None
             None None None in
  let first := Recorder.exec c [Recorder.ANext; Recorder.ARead Recorder.IoOk]
                 (Recorder.record small_state) in
  let second := Recorder.exec c [Recorder.ANext; Recorder.ARead Recorder.IoOk]
                  (Recorder.record (snd first)) in
  let closed := Recorder.step c (Recorder.AThrow GeneratorExit) (fst first, snd second) in
  (exists l, fst first = Recorder.Suspended l) /\
  (exists l, fst second = Recorder.Suspended l) /\
  fst closed = Recorder.Finished (Some GeneratorExit) /\
  map (fun pr => option_map rclosed (proc_stdout pr))
    (procs (Recorder.on_host (snd closed))) = [Some false; Some true].
Proof. vm_compute. repeat split; eexists; reflexivity. Qed.


(** * Further properties of the module *)

(** ** Command builders *)

Lemma to_int_proper (n : Z) : Z.to_int n <> Pos Nil /\ Z.to_int n <> Neg Nil.
Proof.
  destruct n as [| p | p]; simpl; split; try discriminate;
    intros H; injection H as H; exact (DecimalPos.Unsigned.to_uint_nonnil p H).
Qed.

(** The decimal text of an integer determines the integer. *)
Lemma str_inj (a b : Z) : str a = str b -> a = b.
Proof.
  unfold str. intros H.
  destruct (to_int_proper a) as [Ha Ha'], (to_int_proper b) as [Hb Hb'].
  apply DecimalZ.to_int_inj.
  pose proof (NilZero.isi (Z.to_int a) Ha Ha') as Ea.
  pose proof (NilZero.isi (Z.to_int b) Hb Hb') as Eb.
  rewrite H in Ea. rewrite Ea in Eb. injection Eb as Eb. exact Eb.
Qed.

Lemma format_flags_inj (f1 f2 : AudioFormat) :
  [str (num_channels f1); ("s" ++ str (8 * bytes_per_sample f1))%string;
   str (sample_rate_hz f1)] =
  [str (num_channels f2); ("s" ++ str (8 * bytes_per_sample f2))%string;
   str (sample_rate_hz f2)] ->
  f1 = f2.
Proof.
  destruct f1 as [r1 c1 b1], f2 as [r2 c2 b2].
  cbn [num_channels bytes_per_sample sample_rate_hz]. intros H.
  assert (Hc : str c1 = str c2) by congruence.
  assert (Hr : str r1 = str r2) by congruence.
  assert (Hb : str (8 * b1) = str (8 * b2)) by (cbn [append] in H; congruence).
  apply str_inj in Hc. apply str_inj in Hb. apply str_inj in Hr.
  f_equal; lia.
Qed.

(** A command line is built from one set of arguments only: two calls of
    [arecord], or two calls of [aplay], that return the same command were
    given the same format, file type, file name and device. *)
Theorem commands_determine_arguments
    (fmt1 fmt2 : option AudioFormat) (filetype1 filetype2 : string)
    (filename1 filename2 : option string) (device1 device2 : string)
    (cmd : list string) :
  (arecord fmt1 filetype1 filename1 device1 = Ok cmd ->
   arecord fmt2 filetype2 filename2 device2 = Ok cmd ->
   fmt1 = fmt2 /\ filetype1 = filetype2 /\ filename1 = filename2 /\ device1 = device2) /\
  (aplay fmt1 filetype1 filename1 device1 = Ok cmd ->
   aplay fmt2 filetype2 filename2 device2 = Ok cmd ->
   fmt1 = fmt2 /\ filetype1 = filetype2 /\ filename1 = filename2 /\ device1 = device2).
Proof.
  split.
  - unfold arecord.
    destruct fmt1 as [f1 |]; [| discriminate].
    destruct fmt2 as [f2 |]; [| intros _; discriminate].
    destruct (negb (existsb (String.eqb filetype1) arecord_filetypes)); [discriminate |].
    destruct (negb (existsb (String.eqb filetype2) arecord_filetypes));
      [intros _; discriminate |].
    intros H1 H2. rewrite <- H1 in H2. clear H1.
    destruct filename1, filename2; cbn [List.app] in H2;
      (assert (Hf : f2 = f1) by (apply format_flags_inj; congruence));
      repeat split; congruence.
  - unfold aplay.
    destruct (String.eqb filetype1 "raw" && _)%bool; [discriminate |].
    destruct (String.eqb filetype2 "raw" && _)%bool; [intros _; discriminate |].
    intros H1 H2. rewrite <- H1 in H2. clear H1.
    destruct fmt1 as [f1 |], fmt2 as [f2 |], filename1, filename2; cbn [List.app] in H2;
      try congruence;
      try (assert (Hf : f2 = f1) by (apply format_flags_inj; congruence));
      repeat split; congruence.
Qed.

Lemma commands_determine_arguments_witness :
  Some CD = Some CD /\ "wav" = "wav" /\ Some "a.wav" = Some "a.wav" /\
  "default" = "default".
Proof.
  exact (proj1 (commands_determine_arguments (Some CD) (Some CD) "wav" "wav"
                  (Some "a.wav") (Some "a.wav") "default" "default" _)
           eq_refl eq_refl).
Defined.

(** Whatever [arecord] accepts, [aplay] accepts as well, and the two
    commands differ in the program name only: a recording is played back with
    the file type, device, channel count, sample format, sample rate and file
    name it was made with. *)
Theorem record_and_play_agree (fmt : option AudioFormat) (filetype : string)
    (filename : option string) (device : string) (cmd : list string) :
  arecord fmt filetype filename device = Ok cmd ->
  exists args,
    cmd = "arecord" :: args /\
    aplay fmt filetype filename device = Ok ("aplay" :: args).
Proof.
  unfold arecord, aplay.
  destruct fmt as [f |]; [| discriminate].
  destruct (negb (existsb (String.eqb filetype) arecord_filetypes)); [discriminate |].
  rewrite Bool.andb_false_r.
  intros H. injection H as <-.
  destruct filename; eexists; split; reflexivity.
Qed.

Lemma record_and_play_agree_witness :
  exists args,
    ["arecord"; "-q"; "-t"; "wav"; "-D"; "default";
     "-c"; "2"; "-f"; "s16"; "-r"; "44100"; "a.wav"] = "arecord" :: args /\
    aplay (Some CD) "wav" (Some "a.wav") "default" = Ok ("aplay" :: args).
Proof.
  exact (record_and_play_agree (Some CD) "wav" (Some "a.wav") "default" _ eq_refl).
Defined.

(** ** Top-level helpers *)

Lemma get_proc_new (h : host) (pr : process) :
  get_proc (List.length (procs h)) (set_procs (procs h ++ [pr]) h) = Some pr.
Proof. unfold get_proc. simpl. apply nth_error_snoc. Qed.

Lemma update_proc_new (h : host) (pr : process) (f : process -> process) :
  update_proc (List.length (procs h)) f (set_procs (procs h ++ [pr]) h) =
  set_procs (procs h ++ [f pr]) h.
Proof.
  unfold update_proc, set_procs. simpl. rewrite update_nth_snoc. reflexivity.
Qed.

(** [record_file]: without a wait callback it raises [ValueError] before
    anything else, even with a bad format; an argument [arecord] refuses
    raises with nothing spawned; otherwise one recorder is spawned and, when
    the wait callback returns, terminated and waited for; a wait callback
    that raises leaves the recorder running, neither terminated nor waited
    for. *)
Theorem record_file_outcomes (fmt : option AudioFormat) (filename : option string)
    (filetype device : string) (h : host) :
  record_file fmt filename filetype None device h =
    (Raise (ValueError "Wait callback must be specified."), h) /\
  (forall cb e, arecord fmt filetype filename device = Raise e ->
     record_file fmt filename filetype (Some cb) device h = (Raise e, h)) /\
  (forall cb cmd, arecord fmt filetype filename device = Ok cmd ->
     popen_error h = None ->
     (cb_raises cb = None ->
      record_file fmt filename filetype (Some cb) device h =
        (Ok tt, set_procs (procs h ++ [mkProcess cmd None None true true]) h)) /\
     (forall e, cb_raises cb = Some e ->
      record_file fmt filename filetype (Some cb) device h =
        (Raise e, set_procs (procs h ++ [mkProcess cmd None None false false]) h))).
Proof.
  split; [reflexivity | split].
  - intros cb e He. unfold record_file, record_file_async, bindM, lift.
    rewrite He. reflexivity.
  - intros cb cmd Hcmd Hp.
    unfold record_file, record_file_async, bindM, lift, Popen, call, terminate, wait.
    rewrite Hcmd, Hp. split.
    + intros ->. rewrite get_proc_new, update_proc_new, get_proc_new, update_proc_new.
      reflexivity.
    + intros e ->. reflexivity.
Qed.

Lemma record_file_outcomes_witness :
  record_file (Some CD) (Some "a.wav") "wav" (Some (mkCallback None)) "default"
    (mkHost [] None (fun _ => [])) =
  (Ok tt,
   mkHost [mkProcess ["arecord"; "-q"; "-t"; "wav"; "-D"; "default";
                      "-c"; "2"; "-f"; "s16"; "-r"; "44100"; "a.wav"]
             None None true true] None (fun _ => [])).
Proof.
  exact (proj1 (proj2 (proj2 (record_file_outcomes (Some CD) (Some "a.wav") "wav"
                                "default" (mkHost [] None (fun _ => []))))
                  (mkCallback None) _ eq_refl eq_refl) eq_refl).
Defined.

Lemma play_wav_async_bytes (b : bytes) (h : host) :
  popen_error h = None ->
  play_wav_async (VBytes b) h =
    (Ok (List.length (procs h)),
     set_procs (procs h ++
                [mkProcess ["aplay"; "-q"; "-t"; "wav"; "-D"; "default"]
                   (Some [SWrite b]) None false false]) h).
Proof.
  intros Hp.
  unfold play_wav_async, bindM, lift, Popen, stdin_write, ret. simpl.
  rewrite Hp. rewrite get_proc_new. simpl. rewrite update_proc_new. reflexivity.
Qed.

(** [play_wav_async], by the calls it makes: a byte buffer spawns exactly
    one player, for file type wav with no format arguments and no file name,
    and makes one [write] call on its input with the whole buffer and no
    [close()] call; a path spawns exactly one player on that file, with no
    pipe; anything else raises [ValueError] before anything is spawned; and
    a player that cannot be launched leaves the host as it was. *)
Theorem play_wav_async_spec (input : pyval) (h : host) :
  (forall b, input = VBytes b -> popen_error h = None ->
     play_wav_async input h =
       (Ok (List.length (procs h)),
        set_procs (procs h ++
                   [mkProcess ["aplay"; "-q"; "-t"; "wav"; "-D"; "default"]
                      (Some [SWrite b]) None false false]) h)) /\
  (forall path, input = VStr path -> popen_error h = None ->
     play_wav_async input h =
       (Ok (List.length (procs h)),
        set_procs (procs h ++
                   [mkProcess ["aplay"; "-q"; "-t"; "wav"; "-D"; "default"; path]
                      None None false false]) h)) /\
  ((forall b, input <> VBytes b) -> (forall path, input <> VStr path) ->
     play_wav_async input h =
       (Raise (ValueError "Must be filename or byte-like object"), h)) /\
  (forall e, popen_error h = Some e ->
     (exists b, input = VBytes b) \/ (exists path, input = VStr path) ->
     play_wav_async input h = (Raise e, h)).
Proof.
  split; [| split; [| split]].
  - intros b -> Hp. apply play_wav_async_bytes. assumption.
  - intros path -> Hp. apply play_wav_async_path. assumption.
  - intros Hb Hs. destruct input; try reflexivity.
    + contradiction (Hs s). reflexivity.
    + contradiction (Hb b). reflexivity.
  - intros e Hp [[b ->] | [path ->]];
      unfold play_wav_async, bindM, lift, Popen; simpl; rewrite Hp; reflexivity.
Qed.

Lemma play_wav_async_spec_witness :
  play_wav_async (VBytes abc) (mkHost [] None (fun _ => [])) =
  (Ok O,
   mkHost [mkProcess ["aplay"; "-q"; "-t"; "wav"; "-D"; "default"]
             (Some [SWrite abc]) None false false] None (fun _ => [])).
Proof.
  exact (proj1 (play_wav_async_spec (VBytes abc) (mkHost [] None (fun _ => [])))
           abc eq_refl eq_refl).
Defined.



(** [play_raw_async] on a byte buffer: without a format it raises
    [ValueError] and spawns nothing; with one it spawns exactly one player
    for raw data with the three format arguments and writes the whole buffer
    to its input in one call. *)
Theorem play_raw_async_bytes (fmt : option AudioFormat) (b : bytes) (h : host) :
  (fmt = None ->
   play_raw_async fmt (VBytes b) h =
     (Raise (ValueError "Format must be specified for raw data."), h)) /\
  (forall f, fmt = Some f -> popen_error h = None ->
     play_raw_async fmt (VBytes b) h =
       (Ok (List.length (procs h)),
        set_procs (procs h ++
                   [mkProcess ["aplay"; "-q"; "-t"; "raw"; "-D"; "default";
                               "-c"; str (num_channels f);
                               "-f"; ("s" ++ str (8 * bytes_per_sample f))%string;
                               "-r"; str (sample_rate_hz f)]
                      (Some [SWrite b]) None false false]) h)).
Proof.
  split.
  - intros ->. reflexivity.
  - intros f -> Hp.
    unfold play_raw_async, bindM, lift, Popen, stdin_write, ret, aplay.
    cbn [String.eqb Ascii.eqb Bool.eqb andb List.app fst snd].
    rewrite Hp. rewrite get_proc_new. cbn [proc_stdin stdin_closed existsb].
    rewrite update_proc_new. reflexivity.
Qed.

Lemma play_raw_async_bytes_witness :
  play_raw_async None (VBytes abc) (mkHost [] None (fun _ => [])) =
  (Raise (ValueError "Format must be specified for raw data."),
   mkHost [] None (fun _ => [])).
Proof.
  exact (proj1 (play_raw_async_bytes None abc (mkHost [] None (fun _ => []))) eq_refl).
Defined.

(** ** Players *)

(** [BytesPlayer.play] raises before it changes anything when the format is
    absent ([ValueError]) or the player cannot be launched: no process is
    spawned, [_process] is not set and the started flag is not signalled. *)
Theorem bytes_player_play_failures (fmt : option AudioFormat) (device : string)
    (s : Player.state) :
  (fmt = None ->
   fst (BytesPlayer.play fmt device s) =
     Raise (ValueError "Format must be specified for raw data.")) /\
  (forall e, popen_error (Player.on_host s) = Some e -> fmt <> None ->
     fst (BytesPlayer.play fmt device s) = Raise e) /\
  (forall e, fst (BytesPlayer.play fmt device s) = Raise e ->
     snd (BytesPlayer.play fmt device s) = s).
Proof.
  destruct s as [self h].
  split; [| split].
  - intros ->. reflexivity.
  - intros e He Hf. destruct fmt as [f |]; [| contradiction].
    cbn [Player.on_host] in He.
    unfold BytesPlayer.play, Player.popen, Player.in_host, Popen, bindM, lift, aplay.
    cbn [String.eqb Ascii.eqb Bool.eqb andb Player.on_host fst snd].
    rewrite He. reflexivity.
  - intros e. destruct fmt as [f |]; [| reflexivity].
    unfold BytesPlayer.play, Player.popen, Player.in_host, Popen, bindM, lift, aplay,
      modify, ret.
    cbn [String.eqb Ascii.eqb Bool.eqb andb Player.on_host fst snd].
    destruct (popen_error h); [reflexivity | discriminate].
Qed.

Lemma bytes_player_play_failures_witness :
  fst (BytesPlayer.play None "default"
         (Player.mkState Player.init (mkHost [] None (fun _ => [])))) =
  Raise (ValueError "Format must be specified for raw data.").
Proof.
  exact (proj1 (bytes_player_play_failures None "default"
                  (Player.mkState Player.init (mkHost [] None (fun _ => []))))
           eq_refl).
Defined.

Lemma push_write_result (p : nat) (data : bytes) (h : host) (calls : list stdin_call) :
  stdin_log p h = Some calls -> data <> [] ->
  BytesPlayer.push p (Some data) h =
  (if stdin_closed calls then Raise (ValueError "write to closed file") else Ok tt,
   update_proc p (log_stdin (SWrite data)) h).
Proof.
  intros Hlog Hdata. unfold stdin_log in Hlog.
  destruct data as [| b data]; [contradiction |].
  unfold BytesPlayer.push, stdin_write. simpl.
  destruct (get_proc p h) as [pr |]; [| discriminate].
  rewrite Hlog. reflexivity.
Qed.

Lemma stdin_closed_app (calls calls' : list stdin_call) :
  stdin_closed (calls ++ calls') = (stdin_closed calls || stdin_closed calls')%bool.
Proof. apply existsb_app. Qed.

Lemma delivered_app (calls calls' : list stdin_call) :
  stdin_closed calls = false ->
  delivered (calls ++ calls') = delivered calls ++ delivered calls'.
Proof.
  induction calls as [| [data |] calls IH]; simpl; intros H.
  - reflexivity.
  - rewrite IH by assumption. apply app_assoc.
  - discriminate.
Qed.

Lemma delivered_closed (calls calls' : list stdin_call) :
  stdin_closed calls = true -> delivered (calls ++ calls') = delivered calls.
Proof.
  induction calls as [| [data |] calls IH]; simpl; intros H.
  - discriminate.
  - rewrite IH by assumption. reflexivity.
  - reflexivity.
Qed.

Lemma push_each_chunks (p : nat) (chunks : list bytes) :
  forall (h : host) (calls : list stdin_call),
  stdin_log p h = Some calls -> stdin_closed calls = false ->
  Forall (fun chunk => chunk <> []) chunks ->
  exists h',
    push_each (BytesPlayer.push p) (map Some chunks ++ [None]) h = (Ok tt, h') /\
    stdin_log p h' = Some (calls ++ map SWrite chunks ++ [SClose]) /\
    forall q, q <> p -> get_proc q h' = get_proc q h.
Proof.
  induction chunks as [| chunk chunks IH]; intros h calls Hlog Hopen Hall.
  - cbn [map List.app push_each]. unfold bindM.
    rewrite (push_close p None h calls Hlog eq_refl).
    eexists. split; [reflexivity | split].
    + apply stdin_log_update_eq. assumption.
    + intros q Hq. apply get_proc_update_neq. auto.
  - inversion Hall as [| ? ? Hne Hrest]; subst.
    cbn [map List.app push_each]. unfold bindM.
    rewrite (push_write_result p chunk h calls Hlog Hne), Hopen.
    destruct (IH (update_proc p (log_stdin (SWrite chunk)) h) (calls ++ [SWrite chunk]))
      as [h' [Hrun [Hlog' Hframe]]].
    + apply stdin_log_update_eq. assumption.
    + rewrite stdin_closed_app, Hopen. reflexivity.
    + assumption.
    + exists h'. split; [exact Hrun | split].
      * rewrite Hlog', <- app_assoc. reflexivity.
      * intros q Hq. rewrite (Hframe q Hq). apply get_proc_update_neq. auto.
Qed.

(** Feeding [push] a sequence of non-empty chunks and then [None], on a pipe
    that is open: when the feeding returns without an exception, the pipe has
    seen exactly one [write] per chunk, in order, then one [close()], the
    writes carry the concatenation of the chunks, and no other process has
    been touched. *)
Theorem push_each_streams (p : nat) (chunks : list bytes) (h : host)
    (calls : list stdin_call) :
  stdin_log p h = Some calls -> stdin_closed calls = false ->
  Forall (fun chunk => chunk <> []) chunks ->
  let run := push_each (BytesPlayer.push p) (map Some chunks ++ [None]) h in
  fst run = Ok tt ->
  stdin_log p (snd run) = Some (calls ++ map SWrite chunks ++ [SClose]) /\
  delivered (calls ++ map SWrite chunks ++ [SClose]) =
    delivered calls ++ List.concat chunks /\
  forall q, q <> p -> get_proc q (snd run) = get_proc q h.
Proof.
  intros Hlog Hopen Hall run _.
  destruct (push_each_chunks p chunks h calls Hlog Hopen Hall) as [h' [Hrun [Hlog' Hframe]]].
  unfold run. rewrite Hrun. cbn [snd].
  split; [exact Hlog' | split; [| exact Hframe]].
  rewrite delivered_app by assumption. f_equal.
  clear. induction chunks as [| chunk chunks IH]; simpl.
  - reflexivity.
  - rewrite IH. reflexivity.
Qed.

Lemma push_each_streams_witness :
  stdin_log 0
    (snd (push_each (BytesPlayer.push 0) (map Some [abc; abc] ++ [None])
            (mkHost [mkProcess ["aplay"] (Some []) None false false] None
               (fun _ => [])))) =
  Some [SWrite abc; SWrite abc; SClose].
Proof.
  refine (proj1 (push_each_streams 0 [abc; abc]
              (mkHost [mkProcess ["aplay"] (Some []) None false false] None (fun _ => []))
              [] eq_refl eq_refl _ eq_refl)).
  repeat constructor; discriminate.
Defined.

(** An empty chunk (or [None]) in the middle of a stream ends it: the pipe
    is closed, and the next non-empty chunk raises [ValueError]; nothing
    pushed from the empty chunk on reaches the player. *)
Theorem push_after_empty_chunk_raises (p : nat) (h : host) (calls : list stdin_call)
    (empty : option bytes) (data : bytes) (rest : list (option bytes)) :
  stdin_log p h = Some calls ->
  truthy_bytes empty = false -> data <> [] ->
  let run := push_each (BytesPlayer.push p) (empty :: Some data :: rest) h in
  fst run = Raise (ValueError "write to closed file") /\
  stdin_log p (snd run) = Some (calls ++ [SClose; SWrite data]) /\
  delivered (calls ++ [SClose; SWrite data]) = delivered calls.
Proof.
  intros Hlog Hempty Hdata run. unfold run. cbn [push_each]. unfold bindM.
  rewrite (push_close p empty h calls Hlog Hempty).
  pose proof (stdin_log_update_eq p SClose h calls Hlog) as Hlog'.
  rewrite (push_write_result p data _ _ Hlog' Hdata).
  rewrite stdin_closed_app. cbn [stdin_closed existsb is_close orb].
  rewrite Bool.orb_true_r. cbn [fst snd].
  split; [reflexivity | split].
  - rewrite (stdin_log_update_eq p (SWrite data) _ _ Hlog'), <- app_assoc. reflexivity.
  - destruct (stdin_closed calls) eqn:Hc.
    + apply delivered_closed. assumption.
    + rewrite delivered_app by assumption. simpl. apply app_nil_r.
Qed.

Lemma push_after_empty_chunk_raises_witness :
  fst (push_each (BytesPlayer.push 0) [Some []; Some abc]
         (mkHost [mkProcess ["aplay"] (Some []) None false false] None (fun _ => [])))
  = Raise (ValueError "write to closed file").
Proof.
  exact (proj1 (push_after_empty_chunk_raises 0
                  (mkHost [mkProcess ["aplay"] (Some []) None false false] None
                     (fun _ => []))
                  [] (Some []) abc [] eq_refl eq_refl
                  ltac:(discriminate))).
Defined.



(** ** Recorder: join *)

Section RecorderJoin.

Import Recorder.

Lemma steady_ret {A : Type} (a : A) : steady (ret a).
Proof. intros s. reflexivity. Qed.

Lemma steady_lift {A : Type} (r : result A) : steady (lift r).
Proof. intros s. reflexivity. Qed.

Lemma steady_bind {A B : Type} (m : M state A) (k : A -> M state B) :
  steady m -> (forall a, steady (k a)) -> steady (bindM m k).
Proof.
  intros Hm Hk s. unfold bindM.
  specialize (Hm s). destruct (m s) as [[a | e] s']; simpl in *.
  - rewrite Hk. assumption.
  - assumption.
Qed.

Lemma steady_modify (g : state -> state) :
  (forall s, tie (g s) = tie s) -> steady (modify g).
Proof. intros Hg s. apply Hg. Qed.

Lemma steady_in_host {A : Type} (m : M host A) :
  (forall h, List.length (procs (snd (m h))) = List.length (procs h)) ->
  steady (in_host m).
Proof.
  intros Hm s. unfold in_host, tie. specialize (Hm (on_host s)).
  destruct (m (on_host s)) as [r h]. simpl in *. rewrite Hm. reflexivity.
Qed.

Lemma steady_call_back (ev : event) (cb : option callback) : steady (call_back ev cb).
Proof. intros s. destruct cb; reflexivity. Qed.

Lemma steady_the_process : steady the_process.
Proof. intros s. unfold the_process. destruct (_process (self s)); reflexivity. Qed.

Lemma stdout_close_length (p : nat) (h : host) :
  List.length (procs (snd (stdout_close p h))) = List.length (procs h).
Proof.
  unfold stdout_close. destruct (get_proc p h) as [pr |]; [| reflexivity].
  destruct (proc_stdout pr); [| reflexivity]. simpl. apply length_update_nth.
Qed.

Lemma stdout_read_length (p : nat) (n : Z) (h : host) :
  List.length (procs (snd (stdout_read p n h))) = List.length (procs h).
Proof.
  unfold stdout_read. destruct (get_proc p h) as [pr |]; [| reflexivity].
  destruct (proc_stdout pr) as [o |]; [| reflexivity].
  destruct (pipe_read n o) as [[data o'] | e]; [| reflexivity].
  simpl. apply length_update_nth.
Qed.

Lemma wait_length (p : nat) (h : host) :
  List.length (procs (snd (wait p h))) = List.length (procs h).
Proof.
  unfold wait. destruct (get_proc p h); [| reflexivity].
  simpl. apply length_update_nth.
Qed.

Lemma steady_cleanup (c : config) (l : locals) : steady (cleanup c l).
Proof.
  unfold cleanup.
  apply steady_bind; [apply steady_the_process | intros p].
  apply steady_bind; [apply steady_in_host; apply stdout_close_length | intros _].
  apply steady_bind; [apply steady_call_back | intros _].
  destruct (wav_file l); [| apply steady_ret].
  apply steady_modify. reflexivity.
Qed.

Lemma leave_tie (c : config) (l : locals) (pending_exn : option exn) (s : state) :
  tie (snd (leave c l pending_exn s)) = tie s.
Proof. rewrite leave_snd. apply steady_cleanup. Qed.

Lemma loop_head_tie (c : config) (l : locals) (s : state) :
  tie (snd (loop_head c l s)) = tie s.
Proof.
  unfold loop_head.
  destruct (iterator l) as [[| k] |]; try apply leave_tie;
    destruct (_done (self s)); try apply leave_tie; reflexivity.
Qed.

Lemma loop_body_tie (c : config) (l : locals) (o : io_outcome) (s : state) :
  tie (snd (loop_body c l o s)) = tie s.
Proof.
  assert (Hread : steady (process <~ the_process ;;
                          in_host (stdout_read process (chunk_size l)))).
  { apply steady_bind; [apply steady_the_process | intros p].
    apply steady_in_host. apply stdout_read_length. }
  unfold loop_body.
  destruct o as [| e | e]; try apply leave_tie;
    specialize (Hread s);
    destruct ((process <~ the_process ;;
               in_host (stdout_read process (chunk_size l))) s)
      as [[[| b data] | e'] s'];
    simpl in Hread; try (rewrite leave_tie; assumption);
    destruct (wav_file l) as [w |]; simpl; try assumption.
  rewrite leave_tie. assumption.
Qed.

(** What the prologue does to what [join] depends on: nothing, when it
    fails before the process is spawned; otherwise the new process is the
    last of the host, [_process] is its handle and started is signalled. *)
Lemma prologue_tie (c : config) (s : state) :
  tie (snd (prologue c s)) = tie s \/
  tie (snd (prologue c s)) =
    (true, Some (List.length (procs (on_host s))), S (List.length (procs (on_host s)))).
Proof.
  unfold prologue. rewrite record_command.
  unfold bindM, lift, ret, raise, modify, in_host, Popen, wave_open, wave_set_format,
    call_back, call.
  destruct (chunk_size_of c) as [cs | e]; [| left; reflexivity].
  destruct s as [r h ws we obs]. simpl.
  destruct (truthy_filename (filename c)) as [name |]; simpl;
    [destruct we as [e |]; simpl; [left; reflexivity |];
     destruct (num_channels (fmt c) <? 1); [left; reflexivity |];
     destruct ((bytes_per_sample (fmt c) <? 1) || (4 <? bytes_per_sample (fmt c)));
       [left; reflexivity |];
     destruct (sample_rate_hz (fmt c) <=? 0); [left; reflexivity |]; simpl |];
    (destruct (popen_error h) as [e |]; simpl; [left; reflexivity |]);
    right;
    (destruct (on_start c) as [f |]; simpl;
     [destruct (cb_raises f) as [e |] |]);
    unfold tie; simpl; rewrite length_app; simpl; rewrite Nat.add_1_r; reflexivity.
Qed.

Lemma joinable_tie (s s' : state) :
  tie s' = tie s -> joinable s -> joinable s'.
Proof.
  unfold tie, joinable. intros H. injection H as -> -> ->. auto.
Qed.

Lemma joinable_spawned (s s' : state) :
  tie s' = (true, Some (List.length (procs (on_host s))),
            S (List.length (procs (on_host s)))) ->
  joinable s'.
Proof.
  unfold tie, joinable. intros H. injection H as _ -> ->.
  intros _. eexists. split; [reflexivity | lia].
Qed.

Lemma step_joinable (c : config) (a : action) (m : machine) :
  joinable (snd m) -> joinable (snd (step c a m)) /\
  (_started (self (snd m)) = true -> _started (self (snd (step c a m))) = true).
Proof.
  destruct m as [pc s]. cbn [snd]. intros Hj.
  assert (Hsame : forall m' : machine, tie (snd m') = tie s ->
            joinable (snd m') /\
            (_started (self s) = true -> _started (self (snd m')) = true)).
  { intros m' H. split; [apply (joinable_tie s); assumption |].
    unfold tie in H. injection H as -> _ _. auto. }
  destruct a as [| e | o |]; destruct pc as [| l | l | r]; simpl;
    try (apply (Hsame (Created, s)); reflexivity);
    try (apply Hsame; apply loop_head_tie);
    try (apply Hsame; apply leave_tie);
    try (apply Hsame; apply loop_body_tie);
    try (apply (Hsame (Created, done s)); reflexivity).
  (* the first next() *)
  destruct (prologue_tie c s) as [Hp | Hp];
    destruct (prologue c s) as [[l | e] s']; cbn [snd] in Hp.
  - apply Hsame. rewrite loop_head_tie. assumption.
  - apply Hsame. assumption.
  - assert (Ht : tie (snd (loop_head c l s')) =
                 (true, Some (List.length (procs (on_host s))),
                  S (List.length (procs (on_host s)))))
      by (rewrite loop_head_tie; assumption).
    split; [apply (joinable_spawned s); assumption |].
    intros _. unfold tie in Ht. injection Ht as -> _ _. reflexivity.
  - split; [apply (joinable_spawned s); assumption |].
    intros _. cbn [snd]. unfold tie in Hp. injection Hp as -> _ _. reflexivity.
Qed.

Lemma exec_joinable (c : config) (acts : list action) (m : machine) :
  joinable (snd m) -> joinable (snd (exec c acts m)) /\
  (_started (self (snd m)) = true -> _started (self (snd (exec c acts m))) = true).
Proof.
  revert m. induction acts as [| a acts IH]; intros m Hj; simpl.
  - split; [assumption | auto].
  - destruct (step_joinable c a m Hj) as [Hj' Hs].
    destruct (IH _ Hj') as [Hj'' Hs']. split; auto.
Qed.

Lemma session_joinable (runs : list (config * list action)) (s : state) :
  joinable s -> joinable (session runs s) /\
  (_started (self s) = true -> _started (self (session runs s)) = true).
Proof.
  revert s. induction runs as [| [c acts] runs IH]; intros s Hj.
  - split; [assumption | auto].
  - unfold session in *. simpl.
    destruct (exec_joinable c acts (record s) Hj) as [Hj' Hs].
    destruct (IH _ Hj') as [Hj'' Hs']. split; auto.
Qed.

Lemma join_when_joinable (exits : process -> bool) (s : state) :
  joinable s ->
  (_started (self s) = false -> recorder_join exits s = Blocked) /\
  (forall r s', recorder_join exits s = Returned r s' ->
     r = Ok tt /\ _started (self s) = true /\
     exists p, _process (self s) = Some p /\
               option_map proc_waited (get_proc p (on_host s')) = Some true).
Proof.
  intros Hj. unfold recorder_join.
  destruct (_started (self s)) eqn:Hs; [| split; [reflexivity | discriminate]].
  split; [discriminate |].
  destruct (Hj Hs) as [p [Hp Hlt]].
  assert (Hget : exists pr, get_proc p (on_host s) = Some pr).
  { unfold get_proc. destruct (nth_error (procs (on_host s)) p) eqn:E; [eauto |].
    apply nth_error_None in E. lia. }
  destruct Hget as [pr Hpr].
  unfold the_process, wait_for. rewrite Hp, Hpr.
  intros r s'. destruct (exits pr); [| discriminate].
  intros H. injection H as <- <-. cbn [on_host].
  split; [reflexivity | split; [reflexivity |]].
  exists p. split; [reflexivity |].
  rewrite get_proc_update_eq, Hpr. reflexivity.
Qed.

Lemma loop_head_pc (c : config) (l : locals) (s : state) :
  fst (loop_head c l s) <> Created.
Proof.
  unfold loop_head.
  destruct (iterator l) as [[| k] |];
    try (destruct (_done (self s)); [| discriminate]);
    match goal with
    | |- fst (leave ?c ?l ?e ?s) <> _ =>
      destruct (leave_finished c l e s) as [r Hr]; rewrite Hr; discriminate
    end.
Qed.

Lemma loop_body_pc (c : config) (l : locals) (o : io_outcome) (s : state) :
  fst (loop_body c l o s) <> Created.
Proof.
  destruct (loop_body_cases c l o s) as [[[r Hr] _] | [Hr _]]; rewrite Hr; discriminate.
Qed.

(** One step and what [join] depends on: only the first [next()] of a
    generator, which runs the prologue, can change it, and a change is the
    spawning of the process with started signalled. *)
Lemma step_tie (c : config) (a : action) (m : machine) :
  (fst m = Created /\ fst (step c a m) = Created /\ tie (snd (step c a m)) = tie (snd m)) \/
  (fst (step c a m) <> Created /\
   (tie (snd (step c a m)) = tie (snd m) \/
    (fst m = Created /\
     tie (snd (step c a m)) =
       (true, Some (List.length (procs (on_host (snd m)))),
        S (List.length (procs (on_host (snd m)))))))).
Proof.
  destruct m as [pc s]. cbn [fst snd].
  destruct a as [| e | o |], pc as [| l | l | r]; cbn [step fst snd];
    try (left; repeat split; reflexivity);
    try (right; split; [discriminate | left; reflexivity]).
  - (* the first next() *)
    right. destruct (prologue_tie c s) as [Hp | Hp];
      destruct (prologue c s) as [[l | e] s']; cbn [snd] in Hp.
    + split; [apply loop_head_pc | left; rewrite loop_head_tie; assumption].
    + split; [discriminate | left; assumption].
    + split; [apply loop_head_pc |].
      right. split; [reflexivity | rewrite loop_head_tie; assumption].
    + split; [discriminate | right; split; [reflexivity | assumption]].
  - right. split; [apply loop_head_pc | left; apply loop_head_tie].
  - right. split; [| left; apply leave_tie].
    destruct (leave_finished c l (Some e) s) as [r Hr]. rewrite Hr. discriminate.
  - right. split; [apply loop_body_pc | left; apply loop_body_tie].
Qed.

Lemma exec_tie (c : config) (acts : list action) (m : machine) :
  tie (snd (exec c acts m)) = tie (snd m) \/
  (fst m = Created /\
   tie (snd (exec c acts m)) =
     (true, Some (List.length (procs (on_host (snd m)))),
      S (List.length (procs (on_host (snd m)))))).
Proof.
  revert m. induction acts as [| a acts IH]; intros m; [left; reflexivity |].
  change (exec c (a :: acts) m) with (exec c acts (step c a m)).
  destruct (step_tie c a m) as [[Hm [Hpc Ht]] | [Hpc Ht]];
    destruct (IH (step c a m)) as [Hf | [Hc Hf]].
  - left. congruence.
  - right. split; [exact Hm |]. rewrite Hf.
    unfold tie in Ht. injection Ht as _ _ ->. reflexivity.
  - destruct Ht as [Ht | [Hm Ht]]; [left | right; split; [exact Hm |]]; congruence.
  - contradiction.
Qed.

End RecorderJoin.

(** [Recorder.join] (and so leaving a [with] block) never raises.  On a
    recorder made by [Recorder()], whatever [record] calls have been made and
    however their generators, one after the other, were driven: [join] blocks while started is not
    signalled; when it returns, it returns normally, having waited for the
    process [_process] names (it blocks as long as that process does not
    exit); started, once signalled, is not cleared by any later call; and a
    call of [record] that has spawned its process has signalled started,
    also when [on_start] raises or the generator is abandoned. *)
Theorem recorder_join_never_raises (h : host) (we : option exn)
    (runs : list (Recorder.config * list Recorder.action)) (exits : process -> bool) :
  let s := Recorder.session runs (Recorder.mkState Recorder.init h [] we []) in
  (Recorder._started (Recorder.self s) = false -> recorder_join exits s = Blocked) /\
  (forall r s', recorder_join exits s = Returned r s' ->
     r = Ok tt /\ Recorder._started (Recorder.self s) = true /\
     exists p, Recorder._process (Recorder.self s) = Some p /\
               option_map proc_waited (get_proc p (Recorder.on_host s')) = Some true) /\
  (forall more, Recorder._started (Recorder.self s) = true ->
     Recorder._started (Recorder.self (Recorder.session more s)) = true) /\
  (forall c acts,
     let s' := snd (Recorder.exec c acts (Recorder.record s)) in
     (List.length (procs (Recorder.on_host s)) <
      List.length (procs (Recorder.on_host s')))%nat ->
     Recorder._started (Recorder.self s') = true).
Proof.
  intros s.
  assert (Hj : joinable s).
  { apply session_joinable. intros H. discriminate H. }
  split; [apply join_when_joinable; assumption |].
  split; [apply join_when_joinable; assumption |].
  split; [intros more; apply session_joinable; assumption |].
  intros c acts s' Hgrew. unfold s' in *.
  destruct (exec_tie c acts (Recorder.record s)) as [Ht | [_ Ht]];
    unfold tie in Ht; cbn [snd Recorder.record] in Ht.
  - injection Ht as _ _ Hlen. lia.
  - injection Ht as -> _ _. reflexivity.
Qed.

(** An [on_start] that raises: the process is spawned and started is
    signalled all the same. *)
Lemma recorder_join_never_raises_witness :
  let c := Recorder.mkConfig (mkAudioFormat 2 1 1) (NInt 1) "default" (Some 2)
             (Some (mkCallback (Some (OSError "on_start")))) None None in
  Recorder._started
    (Recorder.self (snd (Recorder.exec c [Recorder.ANext] (Recorder.record small_state))))
  = true.
Proof.
  refine (proj2 (proj2 (proj2 (recorder_join_never_raises
                  (mkHost [] None (fun _ => [x01; x02; x03; x04; x05])) None []
                  (fun _ => true))))
           (Recorder.mkConfig (mkAudioFormat 2 1 1) (NInt 1) "default" (Some 2)
              (Some (mkCallback (Some (OSError "on_start")))) None None)
           [Recorder.ANext] _).
  vm_compute. lia.
Defined.

(** ** Recorder: what a run yields, writes and leaves in the pipe *)

Section RecorderTrace.

Import Recorder.

Variable c : config.
Variable p : nat.
Variable data : bytes.
Variable obs1 : list event.
Variable wav : option nat.
Variable cs : Z.

Lemma map_frames_update (w : nat) g files :
  (forall f, wav_frames (g f) = wav_frames f) ->
  map wav_frames (update_nth w g files) = map wav_frames files.
Proof.
  intros Hg. revert w. induction files as [| f files IH]; intros [| w]; simpl;
    try reflexivity.
  - rewrite Hg. reflexivity.
  - rewrite IH. reflexivity.
Qed.

Lemma cleanup_frames (l : locals) (s : state) :
  map wav_frames (wav_files (snd (cleanup c l s))) = map wav_frames (wav_files s).
Proof.
  unfold cleanup, bindM, the_process, in_host, call_back, call, wave_close, modify, ret.
  destruct (_process (self s)) as [q |]; [| reflexivity].
  destruct (stdout_close q (on_host s)) as [[u | e] h]; simpl; [| reflexivity].
  destruct (on_stop c) as [f |]; simpl;
    [destruct (cb_raises f); simpl; [reflexivity |] |];
    (destruct (wav_file l); simpl; [apply map_frames_update; reflexivity | reflexivity]).
Qed.

Lemma leave_run (l : locals) (pending_exn : option exn) (s : state)
    (chunks : list bytes) (rest lost : bytes) :
  run_facts p data obs1 wav false [] chunks rest lost s ->
  exists r,
    fst (leave c l pending_exn s) = Finished r /\
    (r = None -> pending_exn = None) /\
    run_facts p data obs1 wav true (when_provided (on_stop c) EvOnStop)
      chunks rest lost (snd (leave c l pending_exn s)).
Proof.
  intros [Hp [[pr [Hpr Ho]] [Hobs [Hfr Hdata]]]].
  destruct (cleanup_effects c l s p pr _ Hp Hpr Ho) as [Hself [Hhost [Hobs' _]]].
  pose proof (cleanup_frames l s) as Hframes.
  assert (Hr : exists r, fst (leave c l pending_exn s) = Finished r /\
                         (r = None -> pending_exn = None)).
  { unfold leave. destruct (cleanup c l s) as [[u | e] s']; simpl.
    - eexists. split; [reflexivity | auto].
    - eexists. split; [reflexivity | discriminate]. }
  destruct Hr as [r [Hr Hnone]]. exists r.
  split; [exact Hr | split; [exact Hnone |]].
  rewrite leave_snd. repeat split.
  - rewrite Hself. exact Hp.
  - exists (set_stdout (mkRpipe rest true) pr).
    rewrite Hhost, get_proc_update_eq, Hpr. split; reflexivity.
  - rewrite Hobs', Hobs, app_nil_r, <- app_assoc. reflexivity.
  - intros w Hw. rewrite Hframes. apply Hfr. assumption.
  - exact Hdata.
Qed.

Lemma read_split_app (rest : bytes) :
  fst (read_split cs rest) ++ snd (read_split cs rest) = rest.
Proof.
  unfold read_split. destruct (cs <? 0); simpl.
  - apply app_nil_r.
  - apply firstn_skipn.
Qed.

Lemma read_split_size (rest : bytes) :
  0 <= cs -> Z.of_nat (List.length (fst (read_split cs rest))) <= cs.
Proof.
  intros Hcs. unfold read_split.
  destruct (cs <? 0) eqn:E; [apply Z.ltb_lt in E; lia |].
  simpl. rewrite length_firstn. lia.
Qed.

Lemma read_low (s : state) (chunks : list bytes) (rest : bytes) :
  cs < -1 ->
  run_facts p data obs1 wav false [] chunks rest [] s ->
  exists e, (process <~ the_process ;; in_host (stdout_read process cs)) s = (Raise e, s).
Proof.
  intros Hcs [Hp [[pr [Hpr Ho]] _]].
  unfold bindM, the_process, in_host, stdout_read, pipe_read.
  rewrite Hp, Hpr, Ho. simpl.
  destruct (cs <? -1) eqn:E; [| apply Z.ltb_ge in E; lia].
  eexists. destruct s; reflexivity.
Qed.

Lemma read_run (s : state) (chunks : list bytes) (rest : bytes) :
  -1 <= cs ->
  run_facts p data obs1 wav false [] chunks rest [] s ->
  (process <~ the_process ;; in_host (stdout_read process cs)) s =
  (Ok (fst (read_split cs rest)),
   mkState (self s)
     (update_proc p (set_stdout (mkRpipe (snd (read_split cs rest)) false)) (on_host s))
     (wav_files s) (wave_error s) (observed s)) /\
  run_facts p data obs1 wav false [] chunks (snd (read_split cs rest))
    (fst (read_split cs rest))
    (mkState (self s)
       (update_proc p (set_stdout (mkRpipe (snd (read_split cs rest)) false)) (on_host s))
       (wav_files s) (wave_error s) (observed s)).
Proof.
  intros Hcs [Hp [[pr [Hpr Ho]] [Hobs [Hfr Hdata]]]]. split.
  - unfold bindM, the_process, in_host, stdout_read, pipe_read, read_split.
    rewrite Hp, Hpr, Ho. simpl.
    destruct (cs <? -1) eqn:E; [apply Z.ltb_lt in E; lia |].
    destruct (cs <? 0); reflexivity.
  - repeat split; try assumption.
    + exists (set_stdout (mkRpipe (snd (read_split cs rest)) false) pr).
      cbn [on_host]. rewrite get_proc_update_eq, Hpr. split; reflexivity.
    + rewrite read_split_app. exact Hdata.
Qed.

Lemma well_sized_snoc (chunks : list bytes) (rest : bytes) :
  well_sized cs chunks -> fst (read_split cs rest) <> [] ->
  well_sized cs (chunks ++ [fst (read_split cs rest)]).
Proof.
  intros Hw Hne. apply Forall_app. split; [exact Hw |].
  constructor; [| constructor]. split; [exact Hne | apply read_split_size].
Qed.

Lemma yield_run (s : state) (chunks : list bytes) (rest chunk : bytes) files :
  run_facts p data obs1 wav false [] chunks rest chunk s ->
  (forall w, wav = Some w ->
     nth_error (map wav_frames files) w = Some (chunks ++ [chunk])) ->
  run_facts p data obs1 wav false [] (chunks ++ [chunk]) rest []
    (emit (EvYield chunk) (set_wav_files files s)).
Proof.
  intros [Hp [Hpipe [Hobs [Hfr Hdata]]]] Hfiles. repeat split.
  - exact Hp.
  - exact Hpipe.
  - cbn [observed emit set_wav_files]. rewrite Hobs, map_app, !app_nil_r.
    rewrite <- app_assoc. reflexivity.
  - exact Hfiles.
  - rewrite concat_app. simpl. rewrite app_nil_r, <- app_assoc. exact Hdata.
Qed.

End RecorderTrace.

Section RecorderTraceInv.

Import Recorder.

Variable c : config.
Variable p : nat.
Variable data : bytes.
Variable obs1 : list event.
Variable wav : option nat.
Variable cs : Z.

Lemma fits_bound (l : locals) (k : nat) (chunks : list bytes) :
  iterator_fits c l k chunks ->
  forall n, loop_iterator (num_chunks c) = Some n -> (List.length chunks <= n)%nat.
Proof.
  unfold iterator_fits. intros H n Hn. rewrite Hn in H.
  destruct (iterator l); [lia | contradiction].
Qed.

Lemma finish_inv (l : locals) (pending_exn : option exn) (s : state)
    (chunks : list bytes) (rest lost : bytes) :
  well_sized cs chunks ->
  (pending_exn = None -> lost = []) ->
  (forall n, loop_iterator (num_chunks c) = Some n -> (List.length chunks <= n)%nat) ->
  run_facts p data obs1 wav false [] chunks rest lost s ->
  trace_inv c p data obs1 wav cs (leave c l pending_exn s).
Proof.
  intros Hw Hlost Hn Hfacts.
  destruct (leave_run c p data obs1 wav l pending_exn s chunks rest lost Hfacts)
    as [r [Hr [Hnone Hfacts']]].
  exists chunks, rest, lost. split; [exact Hw |]. rewrite Hr.
  split; [auto | split; [exact Hn | exact Hfacts']].
Qed.

Lemma loop_head_trace (l : locals) (s : state) (chunks : list bytes) (rest : bytes) :
  chunk_size l = cs -> wav_file l = wav ->
  iterator_fits c l 0 chunks -> well_sized cs chunks ->
  run_facts p data obs1 wav false [] chunks rest [] s ->
  trace_inv c p data obs1 wav cs (loop_head c l s).
Proof.
  intros Hcs Hwav Hfit Hw Hfacts.
  pose proof (fits_bound l 0 chunks Hfit) as Hn.
  unfold loop_head.
  destruct (iterator l) as [[| k] |] eqn:Hit.
  - apply (finish_inv _ None s chunks rest []); auto.
  - destruct (_done (self s)); [apply (finish_inv _ None s chunks rest []); auto |].
    exists chunks, rest, []. split; [exact Hw |]. cbn [fst snd].
    refine (conj Hcs (conj Hwav (conj eq_refl (conj _ Hfacts)))).
    unfold iterator_fits in *. rewrite Hit in Hfit. cbn [iterator option_map Nat.pred].
    destruct (loop_iterator (num_chunks c)); [lia | contradiction].
  - destruct (_done (self s)); [apply (finish_inv _ None s chunks rest []); auto |].
    exists chunks, rest, []. split; [exact Hw |]. cbn [fst snd].
    refine (conj Hcs (conj Hwav (conj eq_refl (conj _ Hfacts)))).
    unfold iterator_fits in *. rewrite Hit in Hfit. cbn [iterator option_map].
    exact Hfit.
Qed.

Lemma map_frames_add (w : nat) (chunk : bytes) files (chunks : list bytes) :
  nth_error (map wav_frames files) w = Some chunks ->
  nth_error
    (map wav_frames
       (update_nth w (fun f => mkWav (wav_name f) (wav_format f)
                                 (wav_frames f ++ [chunk]) (wav_closed f)) files)) w
  = Some (chunks ++ [chunk]).
Proof.
  rewrite !nth_error_map, nth_error_update_nth_eq.
  destruct (nth_error files w) as [f |]; simpl; [| discriminate].
  intros H. injection H as ->. reflexivity.
Qed.

Lemma loop_body_trace (l : locals) (o : io_outcome) (s : state)
    (chunks : list bytes) (rest : bytes) :
  chunk_size l = cs -> wav_file l = wav ->
  iterator_fits c l 1 chunks -> well_sized cs chunks ->
  run_facts p data obs1 wav false [] chunks rest [] s ->
  trace_inv c p data obs1 wav cs (loop_body c l o s).
Proof.
  intros Hcs Hwav Hfit Hw Hfacts.
  pose proof (fits_bound l 1 chunks Hfit) as Hn.
  destruct (Z_lt_le_dec cs (-1)) as [Hlow | Hlow].
  { (* a size below -1: the read raises *)
    destruct (read_low p data obs1 wav cs s chunks rest Hlow Hfacts) as [e' Hread].
    unfold loop_body. rewrite Hcs, Hread.
    destruct o as [| e | e]; [apply (finish_inv l (Some e') s chunks rest []) |
                              apply (finish_inv l (Some e) s chunks rest []) |
                              apply (finish_inv l (Some e') s chunks rest [])]; auto. }
  destruct (read_run p data obs1 wav cs s chunks rest Hlow Hfacts) as [Hread Hfacts'].
  unfold loop_body. rewrite Hcs, Hread.
  set (s_r := mkState (self s)
                (update_proc p (set_stdout (mkRpipe (snd (read_split cs rest)) false))
                   (on_host s))
                (wav_files s) (wave_error s) (observed s)) in *.
  assert (Hyield : forall files,
            (forall w, wav = Some w ->
               nth_error (map wav_frames files) w =
                 Some (chunks ++ [fst (read_split cs rest)])) ->
            fst (read_split cs rest) <> [] ->
            trace_inv c p data obs1 wav cs
              (Suspended l, emit (EvYield (fst (read_split cs rest)))
                              (set_wav_files files s_r))).
  { intros files Hfiles Hne.
    exists (chunks ++ [fst (read_split cs rest)]), (snd (read_split cs rest)), [].
    split; [apply well_sized_snoc; assumption |]. cbn [fst snd].
    refine (conj Hcs (conj Hwav (conj eq_refl (conj _
              (yield_run p data obs1 wav s_r chunks _ _ files Hfacts' Hfiles))))).
    unfold iterator_fits in *.
    destruct (loop_iterator (num_chunks c)), (iterator l); try contradiction; auto.
    rewrite length_app. simpl. lia. }
  destruct o as [| e | e];
    try (apply (finish_inv l (Some e) s chunks rest []); auto; fail);
    (destruct (fst (read_split cs rest)) as [| b chunk] eqn:Hchunk;
     [apply (finish_inv l None s_r chunks (snd (read_split cs rest)) []); auto |]);
    destruct (wav_file l) as [w |] eqn:Hwl.
  - (* read and write succeed *)
    unfold writeframes. apply Hyield; [| discriminate].
    intros w' Hw'. rewrite <- Hwav in Hw'. injection Hw' as <-.
    apply map_frames_add. destruct Hfacts' as [_ [_ [_ [Hfr _]]]].
    apply Hfr. symmetry. assumption.
  - apply (Hyield (wav_files s_r)); [| discriminate].
    intros w' Hw'. rewrite <- Hwav in Hw'. discriminate Hw'.
  - (* the write raises *)
    unfold writeframes.
    apply (finish_inv l (Some e) s_r chunks (snd (read_split cs rest)) (b :: chunk));
      auto; discriminate.
  - apply (Hyield (wav_files s_r)); [| discriminate].
    intros w' Hw'. rewrite <- Hwav in Hw'. discriminate Hw'.
Qed.

End RecorderTraceInv.

Section RecorderTraceRun.

Import Recorder.

Variable c : config.

Lemma run_facts_done (p : nat) (data : bytes) (obs1 : list event) (wav : option nat)
    (closed : bool) (tail : list event) (chunks : list bytes) (rest lost : bytes)
    (s : state) :
  run_facts p data obs1 wav closed tail chunks rest lost s ->
  run_facts p data obs1 wav closed tail chunks rest lost (done s).
Proof. intros H. exact H. Qed.

Lemma step_trace (p : nat) (data : bytes) (obs1 : list event) (wav : option nat)
    (cs : Z) (a : action) (m : machine) :
  trace_inv c p data obs1 wav cs m -> trace_inv c p data obs1 wav cs (step c a m).
Proof.
  destruct m as [pc s]. intros [chunks [rest [lost [Hw H]]]].
  destruct pc as [| l | l | r]; cbn [fst snd] in H.
  - contradiction.
  - destruct H as [Hcs [Hwav [-> [Hfit Hfacts]]]].
    destruct a as [| e | o |]; cbn [step].
    + exists chunks, rest, []. split; [exact Hw |]. cbn [fst snd]. auto.
    + exists chunks, rest, []. split; [exact Hw |]. cbn [fst snd]. auto.
    + apply (loop_body_trace c p data obs1 wav cs l o s chunks rest); assumption.
    + exists chunks, rest, []. split; [exact Hw |]. cbn [fst snd]. auto.
  - destruct H as [Hcs [Hwav [-> [Hfit Hfacts]]]].
    destruct a as [| e | o |]; cbn [step].
    + apply (loop_head_trace c p data obs1 wav cs l s chunks rest); assumption.
    + apply (finish_inv c p data obs1 wav cs l (Some e) s chunks rest []); auto.
      apply (fits_bound c l 0 chunks Hfit).
    + exists chunks, rest, []. split; [exact Hw |]. cbn [fst snd]. auto.
    + exists chunks, rest, []. split; [exact Hw |]. cbn [fst snd]. auto.
  - destruct a as [| e | o |]; cbn [step];
      exists chunks, rest, lost; (split; [exact Hw |]); cbn [fst snd]; exact H.
Qed.

Lemma exec_trace (p : nat) (data : bytes) (obs1 : list event) (wav : option nat)
    (cs : Z) (acts : list action) (m : machine) :
  trace_inv c p data obs1 wav cs m -> trace_inv c p data obs1 wav cs (exec c acts m).
Proof.
  revert m. induction acts as [| a acts IH]; intros m Hm; simpl.
  - assumption.
  - apply IH. apply step_trace. assumption.
Qed.

(** From the first [next()] that reaches the loop, the invariant holds
    whatever happens next. *)
Lemma run_trace (s0 s1 : state) (l : locals) (acts : list action) :
  prologue c s0 = (Ok l, s1) ->
  exists cmd,
    arecord (Some (fmt c)) "raw" None (device c) = Ok cmd /\
    trace_inv c (List.length (procs (on_host s0))) (capture (on_host s0) cmd)
      (observed s0 ++ when_provided (on_start c) EvOnStart)
      (wav_file l) (chunk_size l)
      (exec c (ANext :: acts) (record s0)).
Proof.
  intros Hpro.
  destruct (prologue_inv c s0 s1 l Hpro)
    as [cmd [Hcmd [_ [Hit [Hself [Hhost [Hobs [_ Hwav]]]]]]]].
  exists cmd. split; [exact Hcmd |].
  change (exec c (ANext :: acts) (record s0))
    with (exec c acts (step c ANext (record s0))).
  apply exec_trace. simpl. rewrite Hpro.
  apply (loop_head_trace c _ _ _ _ _ l s1 [] (capture (on_host s0) cmd));
    try reflexivity.
  - unfold iterator_fits. rewrite Hit.
    destruct (loop_iterator (num_chunks c)); [simpl; lia | exact I].
  - constructor.
  - repeat split.
    + rewrite Hself. reflexivity.
    + rewrite Hhost. eexists. split; [apply get_proc_new | reflexivity].
    + rewrite Hobs, app_nil_r. reflexivity.
    + intros w Hw. rewrite nth_error_map.
      destruct (truthy_filename (filename c)); injection Hwav as Hl Hfiles;
        rewrite Hl in Hw; [| discriminate Hw].
      injection Hw as <-. rewrite Hfiles, nth_error_snoc. reflexivity.
Qed.

Lemma chunks_of_yields (chunks : list bytes) :
  chunks_of (map EvYield chunks) = chunks.
Proof.
  induction chunks as [| chunk chunks IH]; simpl; [| rewrite IH]; reflexivity.
Qed.

Lemma chunks_of_callbacks (obs0 : list event) (chunks : list bytes)
    (cb cb' : option callback) (finished : bool) :
  chunks_of (obs0 ++ when_provided cb EvOnStart ++ map EvYield chunks ++
             (if finished then when_provided cb' EvOnStop else [])) =
  chunks_of obs0 ++ chunks.
Proof.
  rewrite !chunks_of_app, chunks_of_yields.
  destruct cb, cb', finished; simpl; rewrite ?app_nil_r; reflexivity.
Qed.

(** The invariant, read for a machine that has left [Created]. *)
Lemma trace_inv_read (p : nat) (data : bytes) (obs0 : list event) (wav : option nat)
    (cs : Z) (m : machine) :
  trace_inv c p data (obs0 ++ when_provided (on_start c) EvOnStart) wav cs m ->
  exists chunks rest lost closed,
    well_sized cs chunks /\
    (forall n, loop_iterator (num_chunks c) = Some n -> (List.length chunks <= n)%nat) /\
    (lost = [] \/ exists e, fst m = Finished (Some e)) /\
    closed = (match fst m with Finished _ => true | _ => false end) /\
    run_facts p data (obs0 ++ when_provided (on_start c) EvOnStart) wav closed
      (if closed then when_provided (on_stop c) EvOnStop else [])
      chunks rest lost (snd m) /\
    yielded m = chunks_of obs0 ++ chunks.
Proof.
  intros [chunks [rest [lost [Hw H]]]].
  assert (Hy : forall closed,
    run_facts p data (obs0 ++ when_provided (on_start c) EvOnStart) wav closed
      (if closed then when_provided (on_stop c) EvOnStop else [])
      chunks rest lost (snd m) ->
    yielded m = chunks_of obs0 ++ chunks).
  { intros closed [_ [_ [Hobs _]]]. unfold yielded. rewrite Hobs, <- app_assoc.
    apply chunks_of_callbacks. }
  destruct (fst m) as [| l | l | r] eqn:Hpc.
  - contradiction.
  - destruct H as [_ [_ [-> [Hfit Hfacts]]]].
    exists chunks, rest, [], false.
    split; [exact Hw | split; [exact (fits_bound c l 1 chunks Hfit) |]].
    split; [left; reflexivity | split; [reflexivity | split; [exact Hfacts |]]].
    apply (Hy false Hfacts).
  - destruct H as [_ [_ [-> [Hfit Hfacts]]]].
    exists chunks, rest, [], false.
    split; [exact Hw | split; [exact (fits_bound c l 0 chunks Hfit) |]].
    split; [left; reflexivity | split; [reflexivity | split; [exact Hfacts |]]].
    apply (Hy false Hfacts).
  - destruct H as [Hlost [Hn Hfacts]].
    exists chunks, rest, lost, true.
    split; [exact Hw | split; [exact Hn |]].
    split; [| split; [reflexivity | split; [exact Hfacts | apply (Hy true Hfacts)]]].
    destruct r as [e |]; [right; eauto | left; auto].
Qed.

End RecorderTraceRun.

(** The tee: in a call of [record] with a file name that has reached the
    loop, whatever the consumer and the other threads do and whichever reads
    or writes fail, the frames written to the wave file are at every moment
    exactly the chunks yielded by this call, in the order they were
    yielded. *)
Theorem wave_file_holds_the_chunks (c : Recorder.config) (s0 s1 : Recorder.state)
    (l : Recorder.locals) (acts : list Recorder.action) (name : string) :
  Recorder.prologue c s0 = (Ok l, s1) ->
  Recorder.truthy_filename (Recorder.filename c) = Some name ->
  let m := Recorder.exec c (Recorder.ANext :: acts) (Recorder.record s0) in
  exists chunks f,
    Recorder.yielded m = Recorder.yielded (Recorder.record s0) ++ chunks /\
    nth_error (Recorder.wav_files (snd m)) (List.length (Recorder.wav_files s0)) = Some f /\
    wav_frames f = chunks.
Proof.
  intros Hpro Hname m.
  destruct (run_trace c s0 s1 l acts Hpro) as [cmd [_ Hinv]].
  destruct (trace_inv_read c _ _ _ _ _ _ Hinv)
    as [chunks [rest [lost [closed [_ [_ [_ [_ [Hfacts Hy]]]]]]]]].
  destruct Hfacts as [_ [_ [_ [Hfr _]]]].
  destruct (prologue_inv c s0 s1 l Hpro) as [_ [_ [_ [_ [_ [_ [_ [_ Hwav]]]]]]]].
  rewrite Hname in Hwav. injection Hwav as Hl _.
  specialize (Hfr _ Hl). rewrite nth_error_map in Hfr. fold m in Hfr.
  destruct (nth_error (Recorder.wav_files (snd m)) (List.length (Recorder.wav_files s0)))
    as [f |]; [| discriminate Hfr].
  injection Hfr as Hfr. exists chunks, f.
  split; [exact Hy | split; [reflexivity | exact Hfr]].
Qed.

Lemma wave_file_holds_the_chunks_witness :
  exists chunks f,
    Recorder.yielded
      (Recorder.exec small [Recorder.ANext; Recorder.ARead Recorder.IoOk; Recorder.ADone]
         (Recorder.record small_state)) = [] ++ chunks /\
    nth_error
      (Recorder.wav_files
         (snd (Recorder.exec small
                 [Recorder.ANext; Recorder.ARead Recorder.IoOk; Recorder.ADone]
                 (Recorder.record small_state)))) 0 = Some f /\
    wav_frames f = chunks.
Proof.
  exact (wave_file_holds_the_chunks small small_state
           (snd (Recorder.prologue small small_state)) small_locals
           [Recorder.ARead Recorder.IoOk; Recorder.ADone] "out.wav" eq_refl eq_refl).
Defined.

(** No byte is dropped, repeated or reordered: in a call of [record] that
    has reached the loop, at every moment the chunks yielded so far, followed
    by what the pipe still holds, are what the capture process delivers;
    the one exception is a generator that has ended with an exception, where
    the chunk whose write failed was read but not yielded. *)
Theorem record_loses_no_bytes (c : Recorder.config) (s0 s1 : Recorder.state)
    (l : Recorder.locals) (acts : list Recorder.action) :
  Recorder.prologue c s0 = (Ok l, s1) ->
  let m := Recorder.exec c (Recorder.ANext :: acts) (Recorder.record s0) in
  exists cmd chunks rest lost pr closed,
    arecord (Some (Recorder.fmt c)) "raw" None (Recorder.device c) = Ok cmd /\
    Recorder.yielded m = Recorder.yielded (Recorder.record s0) ++ chunks /\
    get_proc (List.length (procs (Recorder.on_host s0))) (Recorder.on_host (snd m)) =
      Some pr /\
    proc_stdout pr = Some (mkRpipe rest closed) /\
    List.concat chunks ++ lost ++ rest = capture (Recorder.on_host s0) cmd /\
    (lost = [] \/ exists e, fst m = Recorder.Finished (Some e)).
Proof.
  intros Hpro m.
  destruct (run_trace c s0 s1 l acts Hpro) as [cmd [Hcmd Hinv]].
  destruct (trace_inv_read c _ _ _ _ _ _ Hinv)
    as [chunks [rest [lost [closed [_ [_ [Hlost [_ [Hfacts Hy]]]]]]]]].
  destruct Hfacts as [_ [[pr [Hpr Ho]] [_ [_ Hdata]]]].
  exists cmd, chunks, rest, lost, pr, closed.
  repeat (split; [assumption |]). assumption.
Qed.

Lemma record_loses_no_bytes_witness :
  exists cmd chunks rest lost pr closed,
    arecord (Some (Recorder.fmt small)) "raw" None (Recorder.device small) = Ok cmd /\
    Recorder.yielded
      (Recorder.exec small [Recorder.ANext; Recorder.ARead Recorder.IoOk]
         (Recorder.record small_state)) = [] ++ chunks /\
    get_proc 0
      (Recorder.on_host
         (snd (Recorder.exec small [Recorder.ANext; Recorder.ARead Recorder.IoOk]
                 (Recorder.record small_state)))) = Some pr /\
    proc_stdout pr = Some (mkRpipe rest closed) /\
    List.concat chunks ++ lost ++ rest = [x01; x02; x03; x04; x05] /\
    (lost = [] \/
     exists e,
       fst (Recorder.exec small [Recorder.ANext; Recorder.ARead Recorder.IoOk]
              (Recorder.record small_state)) = Recorder.Finished (Some e)).
Proof.
  exact (record_loses_no_bytes small small_state
           (snd (Recorder.prologue small small_state)) small_locals
           [Recorder.ARead Recorder.IoOk] eq_refl).
Defined.

(** The order of what the caller observes: in a call of [record] that has
    reached the loop, [on_start] (if provided) comes before every chunk, and
    [on_stop] (if provided) is invoked exactly when the generator finishes,
    after the last chunk; nothing is yielded after it. *)
Theorem events_in_order (c : Recorder.config) (s0 s1 : Recorder.state)
    (l : Recorder.locals) (acts : list Recorder.action) :
  Recorder.prologue c s0 = (Ok l, s1) ->
  let m := Recorder.exec c (Recorder.ANext :: acts) (Recorder.record s0) in
  exists chunks,
    Recorder.observed (snd m) =
      Recorder.observed s0 ++
      when_provided (Recorder.on_start c) Recorder.EvOnStart ++
      map Recorder.EvYield chunks ++
      match fst m with
      | Recorder.Finished _ => when_provided (Recorder.on_stop c) Recorder.EvOnStop
      | _ => []
      end.
Proof.
  intros Hpro m.
  destruct (run_trace c s0 s1 l acts Hpro) as [cmd [_ Hinv]].
  destruct (trace_inv_read c _ _ _ _ _ _ Hinv)
    as [chunks [rest [lost [closed [_ [_ [_ [Hclosed [Hfacts _]]]]]]]]].
  destruct Hfacts as [_ [_ [Hobs _]]].
  exists chunks. fold m in Hobs, Hclosed. rewrite Hobs, <- app_assoc.
  rewrite Hclosed. destruct (fst m); reflexivity.
Qed.

Lemma events_in_order_witness :
  exists chunks,
    Recorder.observed
      (snd (Recorder.exec small
              [Recorder.ANext; Recorder.ARead Recorder.IoOk; Recorder.AThrow GeneratorExit]
              (Recorder.record small_state))) =
    [] ++ [Recorder.EvOnStart] ++ map Recorder.EvYield chunks ++ [Recorder.EvOnStop].
Proof.
  exact (events_in_order small small_state
           (snd (Recorder.prologue small small_state)) small_locals
           [Recorder.ARead Recorder.IoOk; Recorder.AThrow GeneratorExit] eq_refl).
Defined.

(** Bounds that hold however the generator is driven: a call of [record]
    that has reached the loop never yields an empty chunk; with a
    non-negative [chunk_size] no chunk is longer than [chunk_size]; and with a
    [num_chunks] other than 0 it never yields more than [num_chunks] chunks
    (none at all for a negative one). *)
Theorem chunks_within_bounds (c : Recorder.config) (s0 s1 : Recorder.state)
    (l : Recorder.locals) (acts : list Recorder.action) :
  Recorder.prologue c s0 = (Ok l, s1) ->
  let m := Recorder.exec c (Recorder.ANext :: acts) (Recorder.record s0) in
  exists chunks,
    Recorder.yielded m = Recorder.yielded (Recorder.record s0) ++ chunks /\
    Recorder.chunk_size_of c = Ok (Recorder.chunk_size l) /\
    Forall (fun chunk : bytes =>
              chunk <> [] /\
              (0 <= Recorder.chunk_size l ->
               Z.of_nat (List.length chunk) <= Recorder.chunk_size l)) chunks /\
    (forall N, Recorder.num_chunks c = Some N -> N <> 0 ->
       (List.length chunks <= Z.to_nat N)%nat).
Proof.
  intros Hpro m.
  destruct (run_trace c s0 s1 l acts Hpro) as [cmd [_ Hinv]].
  destruct (trace_inv_read c _ _ _ _ _ _ Hinv)
    as [chunks [rest [lost [closed [Hw [Hn [_ [_ [_ Hy]]]]]]]]].
  destruct (prologue_inv c s0 s1 l Hpro) as [_ [_ [Hsize _]]].
  exists chunks. split; [exact Hy | split; [exact Hsize | split; [exact Hw |]]].
  intros N HN Hnz. apply Hn. unfold Recorder.loop_iterator. rewrite HN.
  destruct (N =? 0) eqn:E; [apply Z.eqb_eq in E; contradiction | reflexivity].
Qed.

Lemma chunks_within_bounds_witness :
  exists chunks,
    Recorder.yielded
      (Recorder.exec small [Recorder.ANext; Recorder.ARead Recorder.IoOk]
         (Recorder.record small_state)) = [] ++ chunks /\
    (List.length chunks <= 2)%nat.
Proof.
  destruct (chunks_within_bounds small small_state
              (snd (Recorder.prologue small small_state)) small_locals
              [Recorder.ARead Recorder.IoOk] eq_refl)
    as [chunks [Hy [_ [_ Hn]]]].
  exists chunks. split; [exact Hy |].
  apply (Hn 2 eq_refl). discriminate.
Defined.

(** A [chunk_size] of 0, as a short [chunk_duration_sec] gives when the
    product rounds down to 0, makes every read return no bytes: a call of
    [record] that has reached the loop yields nothing, however long the
    stream and however it is driven. *)
Theorem zero_chunk_size_yields_nothing (c : Recorder.config) (s0 s1 : Recorder.state)
    (l : Recorder.locals) (acts : list Recorder.action) :
  Recorder.prologue c s0 = (Ok l, s1) ->
  Recorder.chunk_size l = 0 ->
  Recorder.yielded (Recorder.exec c (Recorder.ANext :: acts) (Recorder.record s0)) =
  Recorder.yielded (Recorder.record s0).
Proof.
  intros Hpro Hzero.
  destruct (run_trace c s0 s1 l acts Hpro) as [cmd [_ Hinv]].
  destruct (trace_inv_read c _ _ _ _ _ _ Hinv)
    as [chunks [rest [lost [closed [Hw [_ [_ [_ [_ Hy]]]]]]]]].
  rewrite Hy. destruct chunks as [| chunk chunks]; [apply app_nil_r |].
  inversion Hw as [| ? ? [Hne Hlen] _]; subst.
  rewrite Hzero in Hlen. specialize (Hlen (Z.le_refl 0)).
  destruct chunk; [contradiction | simpl in Hlen; lia].
Qed.

Lemma zero_chunk_size_yields_nothing_witness :
  Recorder.yielded
    (Recorder.exec
       (Recorder.mkConfig (mkAudioFormat 2 1 1) (NInt 0) "default" None None None None)
       [Recorder.ANext; Recorder.ARead Recorder.IoOk; Recorder.ANext]
       (Recorder.record small_state)) = [].
Proof.
  exact (zero_chunk_size_yields_nothing
           (Recorder.mkConfig (mkAudioFormat 2 1 1) (NInt 0) "default" None None None None)
           small_state _ (Recorder.mkLocals 0 None None)
           [Recorder.ARead Recorder.IoOk; Recorder.ANext] eq_refl eq_refl).
Defined.

(** ** Chunk size *)

Lemma round_sign (sx : bool) (mx ex : Z) (lx : location) :
  match binary_round_aux prec emax sx mx ex lx with
  | S754_finite s _ _ => s = sx
  | _ => True
  end.
Proof.
  unfold binary_round_aux.
  destruct (shr_fexp prec emax mx ex lx) as [mrs' e'].
  destruct (shr_fexp prec emax _ e' loc_Exact) as [mrs'' e''].
  destruct (shr_m mrs''); try exact I.
  destruct (e'' <=? emax - prec); [reflexivity | exact I].
Qed.

Lemma float_of_int_sign (n : Z) (g : spec_float) :
  0 <= n -> float_of_int n = Ok g -> sign_clear g.
Proof.
  intros Hn. unfold float_of_int, binary_normalize.
  destruct n as [| m | m]; [| | lia].
  - intros H. injection H as <-. exact I.
  - unfold binary_round.
    destruct (shl_align m 0 _) as [mz ez].
    pose proof (round_sign false (Z.pos mz) ez loc_Exact) as Hs.
    destruct (binary_round_aux prec emax false (Z.pos mz) ez loc_Exact);
      intros H; try discriminate; injection H as <-; simpl; auto.
Qed.

Lemma mul_sign (f g : spec_float) :
  sign_clear f -> sign_clear g -> sign_clear (SFmul prec emax f g).
Proof.
  destruct f as [sf | sf | | sf mf ef], g as [sg | sg | | sg mg eg]; simpl; auto.
  intros -> ->. simpl. apply round_sign.
Qed.

(** With a duration that is not negative and a byte rate that is not
    negative, [chunk_size] is never negative, so the read in the loop never
    degenerates into reading the whole stream. *)
Theorem chunk_size_not_negative (c : Recorder.config) (cs : Z) :
  non_negative (Recorder.chunk_duration_sec c) ->
  0 <= bytes_per_second (Recorder.fmt c) ->
  Recorder.chunk_size_of c = Ok cs ->
  0 <= cs.
Proof.
  unfold Recorder.chunk_size_of, mul_int, bind.
  destruct (Recorder.chunk_duration_sec c) as [n | f]; cbn [non_negative int].
  - intros Hn Hb H. assert (Hcs : n * bytes_per_second (Recorder.fmt c) = cs)
      by congruence.
    rewrite <- Hcs. apply Z.mul_nonneg_nonneg; assumption.
  - intros Hf Hb.
    destruct (float_of_int (bytes_per_second (Recorder.fmt c))) as [g | e] eqn:Hg;
      [| discriminate].
    pose proof (float_of_int_sign _ g Hb Hg) as Hsg.
    assert (Hsf : sign_clear f) by (destruct f; exact Hf).
    pose proof (mul_sign f g Hsf Hsg) as Hs.
    destruct (SFmul prec emax f g) as [s | s | | s m e]; try discriminate.
    + intros H. cbn [int] in H.
      assert (Hcs : 0 = cs) by congruence. rewrite <- Hcs. apply Z.le_refl.
    + cbn [sign_clear] in Hs. subst s. intros H. cbn [int] in H.
      assert (Hcs : (if 0 <=? e then Z.pos m * 2 ^ e else Z.pos m / 2 ^ (- e)) = cs)
        by congruence.
      rewrite <- Hcs. destruct (0 <=? e) eqn:He.
      * apply Z.leb_le in He. apply Z.mul_nonneg_nonneg; [apply Pos2Z.is_nonneg |].
        apply Z.pow_nonneg. lia.
      * apply Z.leb_gt in He. apply Z.div_pos; [apply Pos2Z.is_nonneg |].
        apply Z.pow_pos_nonneg; lia.
Qed.

Lemma chunk_size_not_negative_witness : 0 <= 3200.
Proof.
  exact (chunk_size_not_negative scenario 3200 eq_refl
           ltac:(vm_compute; discriminate) eq_refl).
Defined.

(** ** Recorder: a start that fails *)

Section RecorderFailedStart.

Import Recorder.

Variable c : config.

Lemma exec_finished (acts : list action) (r : option exn) (s : state) :
  fst (exec c acts (Finished r, s)) = Finished r /\
  on_host (snd (exec c acts (Finished r, s))) = on_host s /\
  wav_files (snd (exec c acts (Finished r, s))) = wav_files s /\
  observed (snd (exec c acts (Finished r, s))) = observed s /\
  (_started (self (snd (exec c acts (Finished r, s)))) = _started (self s) /\
   _process (self (snd (exec c acts (Finished r, s)))) = _process (self s)).
Proof.
  revert s. induction acts as [| a acts IH]; intros s.
  - repeat split.
  - destruct a as [| e | o |]; simpl; try apply IH.
    destruct (IH (done s)) as [H1 [H2 [H3 [H4 [H5 H6]]]]]. repeat split; assumption.
Qed.

(** What a prologue that raises has done by then. *)
Lemma prologue_failure (s s' : state) (e : exn) :
  prologue c s = (Raise e, s') ->
  self s' = self s /\ on_host s' = on_host s /\ observed s' = observed s \/
  exists cmd f,
    on_start c = Some f /\ cb_raises f = Some e /\
    self s' = mk (_done (self s)) true (Some (List.length (procs (on_host s)))) /\
    on_host s' =
      set_procs (procs (on_host s) ++
                 [mkProcess cmd None (Some (mkRpipe (capture (on_host s) cmd) false))
                    false false])
        (on_host s) /\
    observed s' = observed s ++ [EvOnStart].
Proof.
  unfold prologue. rewrite record_command.
  unfold bindM, lift, ret, raise, modify, in_host, Popen, wave_open, wave_set_format,
    call_back, call.
  destruct (chunk_size_of c) as [cs | e0].
  2: { intros H. injection H as _ <-. left. repeat split. }
  destruct s as [r h ws we obs]. simpl.
  destruct (truthy_filename (filename c)) as [name |]; simpl;
    [destruct we as [e0 |]; simpl;
     [intros H; injection H as _ <-; left; repeat split |];
     destruct (num_channels (fmt c) <? 1);
       [intros H; injection H as _ <-; left; repeat split |];
     destruct ((bytes_per_sample (fmt c) <? 1) || (4 <? bytes_per_sample (fmt c)));
       [intros H; injection H as _ <-; left; repeat split |];
     destruct (sample_rate_hz (fmt c) <=? 0);
       [intros H; injection H as _ <-; left; repeat split |]; simpl |];
    (destruct (popen_error h) as [e0 |]; simpl;
     [intros H; injection H as _ <-; left; repeat split |]);
    (destruct (on_start c) as [f |]; simpl;
     [destruct (cb_raises f) as [e0 |] eqn:Hf; [| discriminate] | discriminate]);
    intros H; injection H as <- <-; right;
    eexists; exists f; repeat split; exact Hf.
Qed.

End RecorderFailedStart.

(** A call of [record] whose prologue raises (a chunk size that cannot be
    computed, a wave file that cannot be opened or whose header the wave
    module refuses, a capture process that cannot be launched, an [on_start]
    that raises) finishes with that exception without entering the [try]:
    whatever is done with the generator afterwards, [on_stop] is not invoked
    and no event is added.  Either nothing was spawned and neither the
    recorder nor the host has changed; or the exception is the one of
    [on_start], and the process spawned just before stays as it was
    spawned, its pipe not closed, with [_process] naming it and started
    signalled. *)
Theorem failed_start_skips_cleanup (c : Recorder.config) (s s' : Recorder.state)
    (e : exn) (acts : list Recorder.action) :
  Recorder.prologue c s = (Raise e, s') ->
  let m := Recorder.exec c (Recorder.ANext :: acts) (Recorder.record s) in
  fst m = Recorder.Finished (Some e) /\
  Recorder.count_event Recorder.EvOnStop (Recorder.observed (snd m)) =
    Recorder.count_event Recorder.EvOnStop (Recorder.observed s) /\
  (Recorder.on_host (snd m) = Recorder.on_host s /\
   Recorder.observed (snd m) = Recorder.observed s /\
   Recorder._started (Recorder.self (snd m)) = Recorder._started (Recorder.self s) /\
   Recorder._process (Recorder.self (snd m)) = Recorder._process (Recorder.self s) \/
   exists cmd f,
     Recorder.on_start c = Some f /\ cb_raises f = Some e /\
     Recorder.on_host (snd m) =
       set_procs (procs (Recorder.on_host s) ++
                  [mkProcess cmd None
                     (Some (mkRpipe (capture (Recorder.on_host s) cmd) false))
                     false false])
         (Recorder.on_host s) /\
     Recorder.observed (snd m) = Recorder.observed s ++ [Recorder.EvOnStart] /\
     Recorder._started (Recorder.self (snd m)) = true /\
     Recorder._process (Recorder.self (snd m)) =
       Some (List.length (procs (Recorder.on_host s)))).
Proof.
  intros Hpro m.
  assert (Hm : m = Recorder.exec c acts (Recorder.Finished (Some e), s')).
  { unfold m. simpl. rewrite Hpro. reflexivity. }
  destruct (exec_finished c acts (Some e) s') as [H1 [H2 [_ [H4 [H5 H6]]]]].
  rewrite Hm, H1, H2, H4, H5, H6.
  destruct (prologue_failure c s s' e Hpro)
    as [[Hself [Hhost Hobs]] | [cmd [f [Hon [Hf [Hself [Hhost Hobs]]]]]]].
  - split; [reflexivity |]. rewrite Hobs, Hself, Hhost.
    split; [reflexivity | left; repeat split].
  - split; [reflexivity |]. rewrite Hobs, Hself, Hhost. split.
    + rewrite count_event_app. apply Nat.add_0_r.
    + right. exists cmd, f. repeat split; assumption || reflexivity.
Qed.

(** A header the wave module refuses (no channel): the exception is
    [wave.Error], nothing is spawned and [on_stop] is not invoked. *)
Lemma failed_start_skips_cleanup_witness :
  let c := Recorder.mkConfig (mkAudioFormat 16000 0 2) (NInt 1) "default" None
             None (Some (mkCallback None)) (Some "out.wav") in
  let m := Recorder.exec c [Recorder.ANext; Recorder.AThrow GeneratorExit]
             (Recorder.record small_state) in
  fst m = Recorder.Finished (Some (WaveError "bad # of channels")) /\
  Recorder.count_event Recorder.EvOnStop (Recorder.observed (snd m)) = O.
Proof.
  intros c m.
  destruct (failed_start_skips_cleanup c small_state _ (WaveError "bad # of channels")
              [Recorder.AThrow GeneratorExit] eq_refl) as [H1 [H2 _]].
  split; [exact H1 | exact H2].
Defined.

(** ** Player: a player used twice *)



